(** * marble_octomap_merger: diff extraction, map merging and the merge cycle

    A shallow embedding of [build_diff_tree], [merge_maps] and
    [OctomapMerger::merge], together with the part of the octomap library
    (OcTree, OcTreeStamped) those functions call.

    Conventions.
    - A pointer that may be NULL is an [option]; dereferencing NULL, and
      indexing a vector out of range, end the run ([Crash]).
    - [float]/[double] values are kept abstract: [LogOdds] is the stored
      [float] log-odds, [probability] the library's conversion to a [double]
      occupancy.  [operator<] on log-odds ([float_lt], used by the clamp of
      [setNodeValue]) and [operator!=] on occupancies ([double_ne], used by
      [build_diff_tree]) are operations of which nothing is assumed, so a
      NaN is a value like any other for them.  The [==] of two nodes in
      [isNodeCollapsible] is equality of the stored data.
    - [uint32_t] and [int] are [Z] with the conversions written out. *)

From stdpp Require Import base option list gmap strings vector.
From Stdlib Require Import ZArith Lia.

Local Open Scope Z_scope.

(** ** The octree of the octomap library *)

Module Octree.

(** Depth of every OcTree: [tree_depth(16)]. *)
Definition tree_depth : nat := 16.

(** A child index [pos] in 0..7, kept as its three bits
    [(pos & 1, pos & 2, pos & 4)]: [computeChildIdx] takes them from
    [key.k[0]], [key.k[1]] and [key.k[2]] at the bit of the current level. *)
Definition octant : Type := bool * bool * bool.

(** The eight child indices in the order [for (i = 0; i < 8; i++)]. *)
Definition octants : list octant :=
  [ (false, false, false); (true, false, false);
    (false, true, false);  (true, true, false);
    (false, false, true);  (true, false, true);
    (false, true, true);   (true, true, true) ].

(** [OcTreeKey]: three 16-bit coordinates.  The tree only reads a key
    through [computeChildIdx(key, tree_depth-1-depth)], so the key is kept
    as the sequence of child indices from the root down. *)
Definition OcTreeKey : Type := vec octant tree_depth.

(** [computeChildIdx] on coordinates given as numbers. *)
Definition computeChildIdx (k0 k1 k2 : N) (depth : nat) : octant :=
  (N.testbit k0 (N.of_nat depth), N.testbit k1 (N.of_nat depth),
   N.testbit k2 (N.of_nat depth)).

Definition mkKey (k0 k1 k2 : N) : OcTreeKey :=
  fun_to_vec (λ i : fin tree_depth,
    computeChildIdx k0 k1 k2 (tree_depth - 1 - fin_to_nat i)).

(** A node: either it has no children ([Leaf], holding the node's data),
    or it has a children array with some of the eight children present.
    The value an inner node caches from its children
    ([updateOccupancyChildren]) is left out: neither [search] at full depth
    nor leaf iteration reads it. *)
#[warnings="-register-all"]
Inductive OcNode (A : Type) : Type :=
  | Leaf (a : A)
  | Inner (children : gmap octant (OcNode A)).
Arguments Leaf {A} a.
Arguments Inner {A} children.

(** [OcTreeBaseImpl]: the root pointer, NULL for an empty tree. *)
Record OcTreeBase (A : Type) : Type := { root : option (OcNode A) }.
Arguments root {A} _.

Section Node.
Context {A : Type} `{EqDecision A}.

Definition leaf_data (n : OcNode A) : option A :=
  match n with Leaf a => Some a | Inner _ => None end.

(** [expandNode]: all eight children are created and copy the node's data. *)
Definition expandNode (a : A) : gmap octant (OcNode A) :=
  list_to_map ((λ pos, (pos, Leaf a)) <$> octants).

(** [isNodeCollapsible]: child 0 exists and has no children, and children
    1..7 exist, have no children and compare [==] to child 0.  Returns the
    data of child 0 when the node can be collapsed. *)
Definition isNodeCollapsible (cs : gmap octant (OcNode A)) : option A :=
  match cs !! (false, false, false) with
  | Some (Leaf a) =>
      if forallb (λ pos, match cs !! pos with
                         | Some (Leaf b) => bool_decide (b = a)
                         | _ => false
                         end) (tail octants)
      then Some a else None
  | _ => None
  end.

(** [pruneNode]: a collapsible node takes the data of its children, which
    are deleted. *)
Definition pruneNode (n : OcNode A) : OcNode A * bool :=
  match n with
  | Leaf _ => (n, false)
  | Inner cs => match isNodeCollapsible cs with
                | Some a => (Leaf a, true)
                | None => (n, false)
                end
  end.

(** [search(key)] below a node: follow the child indices; where the child
    is missing, a node without children is returned (a pruned node covers
    the key), a node with children means the key is absent.  The result is
    the data of the node found. *)
Fixpoint search_rec {d} (key : vec octant d) (n : OcNode A) : option A :=
  match n with
  | Leaf a => Some a
  | Inner cs =>
      match key with
      | vnil => None
      | vcons pos key' => cs !! pos ≫= search_rec key'
      end
  end.

(** The children below [node] once [setNodeValueRecurs] has made sure the
    requested child can be reached: none for a node that was just created
    ([None]), the eight copies made by [expandNode] for a pruned node, the
    children it has otherwise. *)
Definition children_of (node : option (OcNode A)) : gmap octant (OcNode A) :=
  match node with
  | None => ∅
  | Some (Leaf a) => expandNode a
  | Some (Inner cs) => cs
  end.

(** [setNodeValueRecurs] with [lazy_eval = false].  [node] is [None] for a
    node that was just created.  [write] is what the last level does to the
    data of the node ([None]: the node was just created).  On the way back
    every node on the path is pruned when collapsible.  The second result
    locates the returned [NODE*]: the number of levels below [node] at which
    the returned node sits (it is the pruned ancestor when pruning
    happened). *)
Fixpoint setNodeValueRecurs {d} (write : option A → A) (key : vec octant d)
    (node : option (OcNode A)) : OcNode A * nat :=
  match key with
  | vnil => (Leaf (write (node ≫= leaf_data)), 0%nat)
  | vcons pos key' =>
      let cs := children_of node in
      let '(c, r) := setNodeValueRecurs write key' (cs !! pos) in
      let cs' := <[pos := c]> cs in
      match isNodeCollapsible cs' with
      | Some a => (Leaf a, 0%nat)
      | None => (Inner cs', S r)
      end
  end.

(** The data of the node a [NODE*] designates: the node [r] levels down the
    path of [key], which has no children. *)
Fixpoint deref {d} (r : nat) (key : vec octant d) (n : OcNode A) : option A :=
  match r with
  | O => leaf_data n
  | S r' =>
      match n, key with
      | Inner cs, vcons pos key' => cs !! pos ≫= deref r' key'
      | _, _ => None
      end
  end.

(** A write through a [NODE*] returned for [key]: the node [r] levels down
    the path of [key] has its data changed by [g]. *)
Fixpoint modifyRecurs {d} (g : A → A) (r : nat) (key : vec octant d)
    (n : OcNode A) : OcNode A :=
  match r with
  | O => match n with Leaf a => Leaf (g a) | Inner _ => n end
  | S r' =>
      match n, key with
      | Inner cs, vcons pos key' => Inner (alter (modifyRecurs g r' key') pos cs)
      | _, _ => n
      end
  end.

(** [expandRecurs(node, depth, max_depth)], [d = max_depth - depth]. *)
Fixpoint expandRecurs (d : nat) (n : OcNode A) : OcNode A :=
  match d with
  | O => n
  | S d' =>
      match n with
      | Leaf a => Inner (expandRecurs d' <$> expandNode a)
      | Inner cs => Inner (expandRecurs d' <$> cs)
      end
  end.

(** The key a leaf iterator reports for a node without children that sits
    [d] levels above the last one: the centre key of its cell. *)
Definition centre_key (d : nat) : vec octant d :=
  match d with
  | O => [#]
  | S d' => (true, true, true) ::: vreplicate d' (false, false, false)
  end.

(** [begin_leafs() .. end_leafs()] below a node: the leaves with their
    keys, children visited in index order. *)
Fixpoint leafs_rec (d : nat) (n : OcNode A) : list (vec octant d * A) :=
  match d return list (vec octant d * A) with
  | O => match n with Leaf a => [([#], a)] | Inner _ => [] end
  | S d' =>
      match n with
      | Leaf a => [(centre_key (S d'), a)]
      | Inner cs =>
          octants ≫= λ pos,
            match cs !! pos with
            | Some c => (λ ka, (pos ::: ka.1, ka.2)) <$> leafs_rec d' c
            | None => []
            end
      end
  end.

(** [pruneRecurs(node, depth, max_depth, num_pruned)], [j = max_depth - depth];
    the second result is the number of nodes pruned. *)
Fixpoint pruneRecurs (j : nat) (n : OcNode A) : OcNode A * nat :=
  match j with
  | O => let '(n', b) := pruneNode n in (n', if b then 1%nat else 0%nat)
  | S j' =>
      match n with
      | Leaf _ => (n, 0%nat)
      | Inner cs =>
          let rs := pruneRecurs j' <$> cs in
          (Inner (fst <$> rs), map_fold (λ _ r acc, (r.2 + acc)%nat) 0%nat rs)
      end
  end.

(** The loop of [prune()]:
    [for (depth = tree_depth-1; depth > 0; --depth)], left as soon as a pass
    prunes nothing. *)
Fixpoint prune_loop (depth : nat) (n : OcNode A) : OcNode A :=
  match depth with
  | O => n
  | S depth' =>
      let '(n', num_pruned) := pruneRecurs depth n in
      if (num_pruned =? 0)%nat then n' else prune_loop depth' n'
  end.

(** *** Operations on a tree *)

Definition empty_tree : OcTreeBase A := {| root := None |}.

Definition search (t : OcTreeBase A) (key : OcTreeKey) : option A :=
  root t ≫= search_rec key.

(** A [NODE*] into a tree, as returned by [setNodeValue]: the key it was
    returned for and the depth of the node on that key's path. *)
Definition NodePtr : Type := OcTreeKey * nat.

Definition setNodeValue_with (write : option A → A) (key : OcTreeKey)
    (t : OcTreeBase A) : OcTreeBase A * NodePtr :=
  let '(n, r) := setNodeValueRecurs write key (root t) in
  ({| root := Some n |}, (key, r)).

Definition modify (g : A → A) (p : NodePtr) (t : OcTreeBase A) : OcTreeBase A :=
  {| root := modifyRecurs g p.2 p.1 <$> root t |}.

Definition expand (t : OcTreeBase A) : OcTreeBase A :=
  {| root := expandRecurs tree_depth <$> root t |}.

Definition leafs (t : OcTreeBase A) : list (OcTreeKey * A) :=
  match root t with
  | Some n => leafs_rec tree_depth n
  | None => []
  end.

Definition prune (t : OcTreeBase A) : OcTreeBase A :=
  {| root := prune_loop (tree_depth - 1) <$> root t |}.

Definition clear (t : OcTreeBase A) : OcTreeBase A := empty_tree.

End Node.

End Octree.

(** ** The merger *)

Module Merger.
Import Octree.

(** *** Integer conversions of the sequence ledger

    [header.seq] and [cur_seq] are [uint32_t]; the ledger
    [std::map<std::string, std::vector<int>> seqs] stores [int]. *)

Definition to_uint32 (z : Z) : Z := z mod 2 ^ 32.

(** [uint32_t] to [int]: values from 2^31 on wrap to negative ones. *)
Definition to_int (z : Z) : Z := (z + 2 ^ 31) mod 2 ^ 32 - 2 ^ 31.

(** [std::count(v.cbegin(), v.cend(), cur_seq)]: each [int] element is
    converted to unsigned for the comparison with the [uint32_t] value. *)
Definition count (v : list Z) (cur_seq : Z) : nat :=
  length (filter (λ e, to_uint32 e = cur_seq) v).

(** [std::max_element(v.cbegin(), v.cend())] on [int]s; [None] stands for
    the end iterator of an empty range. *)
Definition max_element (v : list Z) : option Z :=
  match v with
  | [] => None
  | x :: v' => Some (foldl Z.max x v')
  end.

(** [std::string(nid.data())]: the characters up to the first NUL. *)
Fixpoint c_str (s : string) : string :=
  match s with
  | EmptyString => EmptyString
  | String c s' => if Ascii.eqb c Ascii.zero then EmptyString else String c (c_str s')
  end.

(** *** Comparisons on floating-point values

    [float_lt] is [operator<] on the [float] log-odds;
    [clamping_thres_min] and [clamping_thres_max] are the clamping
    thresholds every tree of the node is constructed with (the defaults of
    the library).  [double_ne] is [operator!=] on the [double]
    occupancies. *)
Class FloatOps (LogOdds : Type) : Type :=
  { float_lt : LogOdds → LogOdds → bool;
    clamping_thres_min : LogOdds;
    clamping_thres_max : LogOdds }.

Class DoubleOps (Occ : Type) : Type :=
  { double_ne : Occ → Occ → bool }.

Section Merger.
Context {LogOdds Occ Data : Type} `{EqDecision LogOdds}.
Context `{float_ops : FloatOps LogOdds} `{double_ops : DoubleOps Occ}.

(** [probability(logodds)], what [getOccupancy()] returns. *)
Context (probability : LogOdds → Occ).

(** [std::max(a, b)] and [std::min(a, b)]: [b] when the comparison holds,
    [a] otherwise. *)
Definition std_max (a b : LogOdds) : LogOdds := if float_lt a b then b else a.
Definition std_min (a b : LogOdds) : LogOdds := if float_lt b a then b else a.

(** The first statement of [setNodeValue(key, log_odds_value)]:
    [std::min(std::max(log_odds_value, clamping_thres_min),
    clamping_thres_max)]. *)
Definition clamp (v : LogOdds) : LogOdds :=
  std_min (std_max v clamping_thres_min) clamping_thres_max.

(** *** Trees *)

(** [OcTree]: a node holds its log-odds value. *)
Definition OcTree : Type := OcTreeBase LogOdds.

(** [OcTreeNodeStamped]: the value and the [unsigned int] timestamp. *)
Record OcTreeNodeStamped : Type :=
  { value : LogOdds; timestamp : Z }.

#[export] Instance OcTreeNodeStamped_eq_dec : EqDecision OcTreeNodeStamped.
Proof. solve_decision. Defined.

Definition OcTreeStamped : Type := OcTreeBase OcTreeNodeStamped.

(** [OcTree::setNodeValue(key, log_odds_value)]: the value is clamped,
    then written at the last level. *)
Definition setNodeValue (key : OcTreeKey) (v : LogOdds) (t : OcTree)
    : OcTree * NodePtr :=
  setNodeValue_with (λ _, clamp v) key t.

(** [OcTreeStamped::setNodeValue(key, log_odds_value)]: the value is
    clamped, then [setLogOdds] on the last-level node; a node created on the
    way is constructed with timestamp 0. *)
Definition setNodeValueStamped (key : OcTreeKey) (v : LogOdds)
    (t : OcTreeStamped) : OcTreeStamped * NodePtr :=
  setNodeValue_with
    (λ o, {| value := clamp v; timestamp := default 0 (timestamp <$> o) |})
    key t.

(** [node->setTimestamp(ts)] through a returned pointer. *)
Definition setTimestamp (p : NodePtr) (ts : Z) (t : OcTreeStamped)
    : OcTreeStamped :=
  modify (λ n, {| value := value n; timestamp := ts |}) p t.

(** *** build_diff_tree

    [tree1] and [tree_diff] are the merger's own trees (allocated by the
    constructor, never NULL); [tree2] is what a decoder returned and may be
    NULL. *)

(** The body of the loop over the leaves of [tree2]: [nodeKey] is
    [it.getKey()], [it] the log-odds of the leaf. *)
Definition build_diff_tree_body (tree1 : OcTree) (acc : OcTree * Z)
    (leaf : OcTreeKey * LogOdds) : OcTree * Z :=
  let '(tree_diff, num_new_nodes) := acc in
  let '(nodeKey, it) := leaf in
  match search tree1 nodeKey with
  | Some nodeIn1 =>
      if double_ne (probability nodeIn1) (probability it)
      then ((setNodeValue nodeKey it tree_diff).1, num_new_nodes)
      else (tree_diff, num_new_nodes)
  | None =>
      ((setNodeValue nodeKey it tree_diff).1, num_new_nodes + 1)
  end.

(** Results: [tree2] as left by [expand()], the diff tree and
    [num_new_nodes]; [None] when [tree2] is NULL. *)
Definition build_diff_tree (tree1 : OcTree) (tree2 : option OcTree)
    (tree_diff : OcTree) : option (OcTree * OcTree * Z) :=
  match tree2 with
  | None => None
  | Some t2 =>
      let t2 := expand t2 in
      let '(tree_diff, num_new_nodes) :=
        foldl (build_diff_tree_body tree1) (tree_diff, 0) (leafs t2) in
      Some (t2, tree_diff, num_new_nodes)
  end.

(** *** merge_maps *)

(** The body of the loop over the leaves of [tree2]. *)
Definition merge_maps_body (replace overwrite : bool) (ts : Z)
    (tree1 : OcTreeStamped) (leaf : OcTreeKey * LogOdds) : OcTreeStamped :=
  let '(nodeKey, it) := leaf in
  match search tree1 nodeKey with
  | Some nodeIn1 =>
      if replace || (overwrite && (timestamp nodeIn1 =? 0))
      then
        let '(tree1, updatedNode) := setNodeValueStamped nodeKey it tree1 in
        setTimestamp updatedNode ts tree1
      else tree1
  | None =>
      let '(tree1, newNode) := setNodeValueStamped nodeKey it tree1 in
      setTimestamp newNode ts tree1
  end.

(** Results: [tree1] and [tree2] as left by the call; [None] when [tree2]
    is NULL. *)
Definition merge_maps (tree1 : OcTreeStamped) (tree2 : option OcTree)
    (replace overwrite : bool) : option (OcTreeStamped * OcTree) :=
  match tree2 with
  | None => None
  | Some t2 =>
      let t2 := expand t2 in
      let ts := if replace then 1 else 0 in
      Some (foldl (merge_maps_body replace overwrite ts) tree1 (leafs t2), t2)
  end.

(** [setNodeValue] followed by [setTimestamp] on the returned node, as both
    writing branches of [merge_maps] do. *)
Definition write_node (ts : Z) (t : OcTreeStamped) (key : OcTreeKey)
    (v : LogOdds) : OcTreeStamped :=
  let '(t', p) := setNodeValueStamped key v t in setTimestamp p ts t'.

(** What [build_diff_tree] tests for a leaf [(k, v)] of [tree2]: the key is
    absent from [baseline], or the occupancy of its node there compares
    [!=] to the leaf's. *)
Definition differs (baseline : OcTree) (k : OcTreeKey) (v : LogOdds) : Prop :=
  search baseline k = None
  ∨ ∃ w, search baseline k = Some w
       ∧ double_ne (probability w) (probability v) = true.

(** The node a merge without [replace] leaves at a key of the source with
    value [v], where the destination had [old]. *)
Definition written (overwrite : bool) (old : option OcTreeNodeStamped)
    (v : LogOdds) : OcTreeNodeStamped :=
  match old with
  | None => {| value := clamp v; timestamp := 0 |}
  | Some n =>
      if overwrite && (timestamp n =? 0)
      then {| value := clamp v; timestamp := 0 |}
      else n
  end.


(** Every node of a merged map carries timestamp 0 or 1. *)
Definition flags_binary (t : OcTreeStamped) : Prop :=
  ∀ k n, search t k = Some n → timestamp n = 0 ∨ timestamp n = 1.


(** *** Messages

    [std_msgs/Header], [octomap_msgs/Octomap] and the two message types of
    this package with the fields the code uses.  [mdata] stands for the
    fields of an Octomap message the codec owns ([binary], [resolution],
    [data]). *)
Record Header : Type :=
  { hseq : Z; stamp : Z; frame_id : string }.

Record Octomap : Type :=
  { header : Header; id : string; mdata : Data }.

Record OctomapArray : Type :=
  { owner : string; num_octomaps : Z; octomaps : list Octomap }.

Record OctomapNeighbors : Type :=
  { num_neighbors : Z; neighbors_ : list OctomapArray }.

Record PointCloud2 : Type :=
  { pc_stamp : Z; pc_frame_id : string; points : list OcTreeKey }.

(** What the node publishes, one constructor per publisher. *)
Inductive Publication : Type :=
  | pub_merged (m : Octomap)
  | pub_size (n : Z)
  | pub_mapdiffs (a : OctomapArray)
  | pub_pcl (p : PointCloud2).

(** The codec of octomap_msgs, an external collaborator: decoders return
    NULL on failure. *)
Context (binaryMsgToMap fullMsgToMap : Octomap → option OcTree).
Context (binaryData fullData : OcTree → Data).
Context (binaryDataStamped fullDataStamped : OcTreeStamped → Data).
Context (no_data : Data).
(** [tree->isNodeOccupied(node)]. *)
Context (isNodeOccupied : LogOdds → bool).

Definition new_Octomap : Octomap :=
  {| header := {| hseq := 0; stamp := 0; frame_id := "" |};
     id := ""; mdata := no_data |}.

(** [binaryMapToMsg(tree, msg)] / [fullMapToMsg(tree, msg)]: fill the
    message, leaving its header. *)
Definition mapToMsg (octo_type : Z) (t : OcTree) (m : Octomap) : Octomap :=
  {| header := header m; id := "OcTree";
     mdata := if octo_type =? 0 then binaryData t else fullData t |}.

Definition mapToMsgStamped (octo_type : Z) (t : OcTreeStamped) (m : Octomap)
    : Octomap :=
  {| header := header m; id := "OcTreeStamped";
     mdata := if octo_type =? 0 then binaryDataStamped t else fullDataStamped t |}.

Definition msgToMap (octo_type : Z) (m : Octomap) : option OcTree :=
  if octo_type =? 0 then binaryMsgToMap m else fullMsgToMap m.

Definition set_header (h : Header) (m : Octomap) : Octomap :=
  {| header := h; id := id m; mdata := mdata m |}.

Definition set_id (i : string) (m : Octomap) : Octomap :=
  {| header := header m; id := i; mdata := mdata m |}.

(** [tree2PointCloud]: the keys of the occupied leaves. *)
Definition tree2PointCloud (t : OcTreeStamped) : list OcTreeKey :=
  fst <$> filter (λ ka, isNodeOccupied (value ka.2) = true) (leafs t).

(** *** The state of an OctomapMerger

    The members [merge()] reads or writes, the local [msg] of [merge()],
    and the list of everything published so far (latest last). *)
Record OctomapMerger : Type :=
  { type : string;
    octo_type : Z;
    map_thresh : Z;
    myMapNew : bool;
    otherMapsNew : bool;
    myMap : Octomap;
    mapdiffs : OctomapArray;
    neighbors : OctomapNeighbors;
    tree_merged : OcTreeStamped;
    tree_sys : option OcTree;
    tree_old : OcTree;
    tree_temp : option OcTree;
    tree_diff : OcTree;
    num_diffs : Z;
    seqs : gmap string (list Z);
    msg : Octomap;
    published : list Publication }.

Definition set_myMapNew (x : bool) (s : OctomapMerger) : OctomapMerger :=
  {| type := type s;
     octo_type := octo_type s;
     map_thresh := map_thresh s;
     myMapNew := x;
     otherMapsNew := otherMapsNew s;
     myMap := myMap s;
     mapdiffs := mapdiffs s;
     neighbors := neighbors s;
     tree_merged := tree_merged s;
     tree_sys := tree_sys s;
     tree_old := tree_old s;
     tree_temp := tree_temp s;
     tree_diff := tree_diff s;
     num_diffs := num_diffs s;
     seqs := seqs s;
     msg := msg s;
     published := published s |}.
Definition set_otherMapsNew (x : bool) (s : OctomapMerger) : OctomapMerger :=
  {| type := type s;
     octo_type := octo_type s;
     map_thresh := map_thresh s;
     myMapNew := myMapNew s;
     otherMapsNew := x;
     myMap := myMap s;
     mapdiffs := mapdiffs s;
     neighbors := neighbors s;
     tree_merged := tree_merged s;
     tree_sys := tree_sys s;
     tree_old := tree_old s;
     tree_temp := tree_temp s;
     tree_diff := tree_diff s;
     num_diffs := num_diffs s;
     seqs := seqs s;
     msg := msg s;
     published := published s |}.
Definition set_myMap (x : Octomap) (s : OctomapMerger) : OctomapMerger :=
  {| type := type s;
     octo_type := octo_type s;
     map_thresh := map_thresh s;
     myMapNew := myMapNew s;
     otherMapsNew := otherMapsNew s;
     myMap := x;
     mapdiffs := mapdiffs s;
     neighbors := neighbors s;
     tree_merged := tree_merged s;
     tree_sys := tree_sys s;
     tree_old := tree_old s;
     tree_temp := tree_temp s;
     tree_diff := tree_diff s;
     num_diffs := num_diffs s;
     seqs := seqs s;
     msg := msg s;
     published := published s |}.
Definition set_mapdiffs (x : OctomapArray) (s : OctomapMerger) : OctomapMerger :=
  {| type := type s;
     octo_type := octo_type s;
     map_thresh := map_thresh s;
     myMapNew := myMapNew s;
     otherMapsNew := otherMapsNew s;
     myMap := myMap s;
     mapdiffs := x;
     neighbors := neighbors s;
     tree_merged := tree_merged s;
     tree_sys := tree_sys s;
     tree_old := tree_old s;
     tree_temp := tree_temp s;
     tree_diff := tree_diff s;
     num_diffs := num_diffs s;
     seqs := seqs s;
     msg := msg s;
     published := published s |}.
Definition set_neighbors (x : OctomapNeighbors) (s : OctomapMerger) : OctomapMerger :=
  {| type := type s;
     octo_type := octo_type s;
     map_thresh := map_thresh s;
     myMapNew := myMapNew s;
     otherMapsNew := otherMapsNew s;
     myMap := myMap s;
     mapdiffs := mapdiffs s;
     neighbors := x;
     tree_merged := tree_merged s;
     tree_sys := tree_sys s;
     tree_old := tree_old s;
     tree_temp := tree_temp s;
     tree_diff := tree_diff s;
     num_diffs := num_diffs s;
     seqs := seqs s;
     msg := msg s;
     published := published s |}.
Definition set_tree_merged (x : OcTreeStamped) (s : OctomapMerger) : OctomapMerger :=
  {| type := type s;
     octo_type := octo_type s;
     map_thresh := map_thresh s;
     myMapNew := myMapNew s;
     otherMapsNew := otherMapsNew s;
     myMap := myMap s;
     mapdiffs := mapdiffs s;
     neighbors := neighbors s;
     tree_merged := x;
     tree_sys := tree_sys s;
     tree_old := tree_old s;
     tree_temp := tree_temp s;
     tree_diff := tree_diff s;
     num_diffs := num_diffs s;
     seqs := seqs s;
     msg := msg s;
     published := published s |}.
Definition set_tree_sys (x : option OcTree) (s : OctomapMerger) : OctomapMerger :=
  {| type := type s;
     octo_type := octo_type s;
     map_thresh := map_thresh s;
     myMapNew := myMapNew s;
     otherMapsNew := otherMapsNew s;
     myMap := myMap s;
     mapdiffs := mapdiffs s;
     neighbors := neighbors s;
     tree_merged := tree_merged s;
     tree_sys := x;
     tree_old := tree_old s;
     tree_temp := tree_temp s;
     tree_diff := tree_diff s;
     num_diffs := num_diffs s;
     seqs := seqs s;
     msg := msg s;
     published := published s |}.
Definition set_tree_old (x : OcTree) (s : OctomapMerger) : OctomapMerger :=
  {| type := type s;
     octo_type := octo_type s;
     map_thresh := map_thresh s;
     myMapNew := myMapNew s;
     otherMapsNew := otherMapsNew s;
     myMap := myMap s;
     mapdiffs := mapdiffs s;
     neighbors := neighbors s;
     tree_merged := tree_merged s;
     tree_sys := tree_sys s;
     tree_old := x;
     tree_temp := tree_temp s;
     tree_diff := tree_diff s;
     num_diffs := num_diffs s;
     seqs := seqs s;
     msg := msg s;
     published := published s |}.
Definition set_tree_temp (x : option OcTree) (s : OctomapMerger) : OctomapMerger :=
  {| type := type s;
     octo_type := octo_type s;
     map_thresh := map_thresh s;
     myMapNew := myMapNew s;
     otherMapsNew := otherMapsNew s;
     myMap := myMap s;
     mapdiffs := mapdiffs s;
     neighbors := neighbors s;
     tree_merged := tree_merged s;
     tree_sys := tree_sys s;
     tree_old := tree_old s;
     tree_temp := x;
     tree_diff := tree_diff s;
     num_diffs := num_diffs s;
     seqs := seqs s;
     msg := msg s;
     published := published s |}.
Definition set_tree_diff (x : OcTree) (s : OctomapMerger) : OctomapMerger :=
  {| type := type s;
     octo_type := octo_type s;
     map_thresh := map_thresh s;
     myMapNew := myMapNew s;
     otherMapsNew := otherMapsNew s;
     myMap := myMap s;
     mapdiffs := mapdiffs s;
     neighbors := neighbors s;
     tree_merged := tree_merged s;
     tree_sys := tree_sys s;
     tree_old := tree_old s;
     tree_temp := tree_temp s;
     tree_diff := x;
     num_diffs := num_diffs s;
     seqs := seqs s;
     msg := msg s;
     published := published s |}.
Definition set_num_diffs (x : Z) (s : OctomapMerger) : OctomapMerger :=
  {| type := type s;
     octo_type := octo_type s;
     map_thresh := map_thresh s;
     myMapNew := myMapNew s;
     otherMapsNew := otherMapsNew s;
     myMap := myMap s;
     mapdiffs := mapdiffs s;
     neighbors := neighbors s;
     tree_merged := tree_merged s;
     tree_sys := tree_sys s;
     tree_old := tree_old s;
     tree_temp := tree_temp s;
     tree_diff := tree_diff s;
     num_diffs := x;
     seqs := seqs s;
     msg := msg s;
     published := published s |}.
Definition set_seqs (x : gmap string (list Z)) (s : OctomapMerger) : OctomapMerger :=
  {| type := type s;
     octo_type := octo_type s;
     map_thresh := map_thresh s;
     myMapNew := myMapNew s;
     otherMapsNew := otherMapsNew s;
     myMap := myMap s;
     mapdiffs := mapdiffs s;
     neighbors := neighbors s;
     tree_merged := tree_merged s;
     tree_sys := tree_sys s;
     tree_old := tree_old s;
     tree_temp := tree_temp s;
     tree_diff := tree_diff s;
     num_diffs := num_diffs s;
     seqs := x;
     msg := msg s;
     published := published s |}.
Definition set_msg (x : Octomap) (s : OctomapMerger) : OctomapMerger :=
  {| type := type s;
     octo_type := octo_type s;
     map_thresh := map_thresh s;
     myMapNew := myMapNew s;
     otherMapsNew := otherMapsNew s;
     myMap := myMap s;
     mapdiffs := mapdiffs s;
     neighbors := neighbors s;
     tree_merged := tree_merged s;
     tree_sys := tree_sys s;
     tree_old := tree_old s;
     tree_temp := tree_temp s;
     tree_diff := tree_diff s;
     num_diffs := num_diffs s;
     seqs := seqs s;
     msg := x;
     published := published s |}.
Definition set_published (x : list Publication) (s : OctomapMerger) : OctomapMerger :=
  {| type := type s;
     octo_type := octo_type s;
     map_thresh := map_thresh s;
     myMapNew := myMapNew s;
     otherMapsNew := otherMapsNew s;
     myMap := myMap s;
     mapdiffs := mapdiffs s;
     neighbors := neighbors s;
     tree_merged := tree_merged s;
     tree_sys := tree_sys s;
     tree_old := tree_old s;
     tree_temp := tree_temp s;
     tree_diff := tree_diff s;
     num_diffs := num_diffs s;
     seqs := seqs s;
     msg := msg s;
     published := x |}.

Definition publish (p : Publication) (s : OctomapMerger) : OctomapMerger :=
  set_published (published s ++ [p]) s.

(** How a call ends: it returns ([Done]) or it stops at a NULL dereference
    or an out-of-range index ([Crash]); either way with the state reached. *)
Inductive outcome : Type :=
  | Done (s : OctomapMerger)
  | Crash (s : OctomapMerger).

Definition state_of (o : outcome) : OctomapMerger :=
  match o with Done s | Crash s => s end.

(** The call returned. *)
Definition returned (o : outcome) : bool :=
  match o with Done _ => true | Crash _ => false end.


Definition and_then (o : outcome) (k : OctomapMerger → outcome) : outcome :=
  match o with
  | Done s => k s
  | Crash s => Crash s
  end.

Notation "o >>> k" := (and_then o k) (at level 61, left associativity).

(** [for (int i = 0; i < n; i++) body(i)]. *)
Definition for_range (n : Z) (body : nat → OctomapMerger → outcome)
    (s : OctomapMerger) : outcome :=
  foldl (λ o i, o >>> body i) (Done s) (seq 0 (Z.to_nat n)).

(** *** OctomapMerger::OctomapMerger *)
Definition new_OctomapMerger (type : string) (octo_type map_thresh : Z)
    : OctomapMerger :=
  {| type := type; octo_type := octo_type; map_thresh := map_thresh;
     myMapNew := false; otherMapsNew := false;
     myMap := new_Octomap;
     mapdiffs := {| owner := ""; num_octomaps := 0; octomaps := [] |};
     neighbors := {| num_neighbors := 0; neighbors_ := [] |};
     tree_merged := empty_tree; tree_sys := Some empty_tree;
     tree_old := empty_tree; tree_temp := Some empty_tree;
     tree_diff := empty_tree; num_diffs := 0; seqs := ∅;
     msg := new_Octomap; published := [] |}.

(** *** Callbacks *)
Definition callback_myMap (m : Octomap) (s : OctomapMerger) : OctomapMerger :=
  set_myMapNew true (set_myMap m s).

Definition callback_neighborMaps (m : OctomapNeighbors) (s : OctomapMerger)
    : OctomapMerger :=
  set_otherMapsNew true (set_neighbors m s).

(** *** OctomapMerger::merge *)

(** The body of [if (num_nodes > map_thresh)]: keep the robot map for the
    next iteration, merge the differences and publish them. *)
Definition publish_diff (now : Z) (s : OctomapMerger) : outcome :=
  match tree_sys s with
  | None => Crash s
  | Some sys =>
      (* tree_old and tree_sys swap their content *)
      let s := set_tree_sys (Some (tree_old s)) (set_tree_old sys s) in
      match merge_maps (tree_merged s) (Some (tree_diff s)) true false with
      | None => Crash s
      | Some (merged, diff) =>
          let s := set_tree_diff diff (set_tree_merged merged s) in
          let s := set_tree_diff (prune (tree_diff s)) s in
          let s := set_num_diffs (num_diffs s + 1) s in
          let s := set_msg (mapToMsg (octo_type s) (tree_diff s) (msg s)) s in
          let s := set_msg (set_header
                     {| hseq := to_uint32 (num_diffs s - 1); stamp := now;
                        frame_id := "world" |} (msg s)) s in
          let s := set_mapdiffs
                     {| owner := owner (mapdiffs s);
                        num_octomaps := num_diffs s;
                        octomaps := octomaps (mapdiffs s) ++ [msg s] |} s in
          let s := publish (pub_mapdiffs (mapdiffs s)) s in
          Done (publish (pub_size (to_uint32 (num_diffs s))) s)
      end
  end.

(** The body of the inner loop: one diff [m] of neighbor [nid]. *)
Definition merge_neighbor_diff (nid : string) (m : Octomap) (s : OctomapMerger)
    : outcome :=
  let cur_seq := to_uint32 (hseq (header m)) in
  let exists_ := negb (count (seqs s !!! c_str nid) cur_seq =? 0)%nat in
  if exists_ then Done s
  else
    let s := set_seqs (<[c_str nid :=
                          (seqs s !!! c_str nid) ++ [to_int cur_seq]]> (seqs s)) s in
    let s := set_tree_temp (msgToMap (octo_type s) m) s in
    match max_element (seqs s !!! c_str nid) with
    | None => Crash s
    | Some latest =>
        let overwrite_node := bool_decide (to_uint32 latest ≤ cur_seq) in
        match merge_maps (tree_merged s) (tree_temp s) false overwrite_node with
        | None => Crash s
        | Some (merged, temp) =>
            (* delete tree_temp *)
            Done (set_tree_temp (Some temp) (set_tree_merged merged s))
        end
    end.

(** The inner loop over [neighbors.neighbors[i].octomaps]. *)
Definition merge_neighbor (i : nat) (s : OctomapMerger) : outcome :=
  match neighbors_ (neighbors s) !! i with
  | None => Crash s
  | Some nb =>
      for_range (num_octomaps nb)
        (λ j s, match octomaps nb !! j with
                | None => Crash s
                | Some m => merge_neighbor_diff (owner nb) m s
                end) s
  end.

(** The outer loop over [neighbors.neighbors]. *)
Definition merge_neighbors (s : OctomapMerger) : outcome :=
  for_range (num_neighbors (neighbors s)) merge_neighbor s.

(** The end of the cycle: the point cloud of a base station, then prune and
    publish the merged map. *)
Definition publish_merged (now : Z) (s : OctomapMerger) : outcome :=
  let s := if bool_decide (type s = "base")
           then publish (pub_pcl {| pc_stamp := now; pc_frame_id := "world";
                                    points := tree2PointCloud (tree_merged s) |}) s
           else s in
  let s := set_tree_merged (prune (tree_merged s)) s in
  let s := set_msg (mapToMsgStamped (octo_type s) (tree_merged s) (msg s)) s in
  let s := set_msg (set_header
             {| hseq := hseq (header (msg s)); stamp := now;
                frame_id := "world" |} (msg s)) s in
  let s := set_msg (set_id "OcTree" (msg s)) s in
  (* delete tree_sys *)
  Done (publish (pub_merged (msg s)) s).

Definition merge (now : Z) (s : OctomapMerger) : outcome :=
  let s := set_tree_sys (msgToMap (octo_type s) (myMap s)) s in
  if bool_decide (tree_sys s = None ∧ type s = "robot") then Done s
  else
    match build_diff_tree (tree_old s) (tree_sys s) (tree_diff s) with
    | None => Crash s
    | Some (sys, diff, num_nodes) =>
        let s := set_tree_diff diff (set_tree_sys (Some sys) s) in
        let s := set_msg new_Octomap s in
        (if bool_decide (map_thresh s < num_nodes)
         then publish_diff now s else Done s) >>>
        (λ s, Done (set_tree_diff (clear (tree_diff s)) s)) >>>
        merge_neighbors >>>
        publish_merged now
    end.

(** *** main: the scheduling loop

    One tick: [ros::spinOnce()] runs the callbacks of the messages that
    arrived, then [merge()] runs if a flag is set. *)
Inductive Arrival : Type :=
  | arrive_myMap (m : Octomap)
  | arrive_neighborMaps (m : OctomapNeighbors).

Definition spinOnce (arrivals : list Arrival) (s : OctomapMerger)
    : OctomapMerger :=
  foldl (λ s a, match a with
                | arrive_myMap m => callback_myMap m s
                | arrive_neighborMaps m => callback_neighborMaps m s
                end) s arrivals.

Definition tick (arrivals : list Arrival) (now : Z) (s : OctomapMerger)
    : outcome :=
  let s := spinOnce arrivals s in
  if myMapNew s || otherMapsNew s
  then merge now (set_otherMapsNew false (set_myMapNew false s))
  else Done s.

(** The loop of [main] over a sequence of ticks. *)
Definition run (ticks : list (list Arrival * Z)) (s : OctomapMerger) : outcome :=
  foldl (λ o t, o >>> tick t.1 t.2) (Done s) ticks.

(** *** Notions the statements about the cycle use *)

(** The ledger entry [seqs[nid.data()]]: empty when the map has no such key. *)
Definition ledger (s : OctomapMerger) (nid : string) : list Z :=
  seqs s !!! c_str nid.

(** The [overwrite_node] the inner loop computes for [cur_seq] when the
    ledger entry was [v] before the [push_back]. *)
Definition overwrite_node_of (v : list Z) (cur_seq : Z) : bool :=
  match max_element (v ++ [to_int cur_seq]) with
  | Some latest => bool_decide (to_uint32 latest ≤ cur_seq)
  | None => false
  end.

(** What [pub_mapdiffs] and [pub_size] publish. *)
Definition is_diff_publication (p : Publication) : bool :=
  match p with
  | pub_mapdiffs _ | pub_size _ => true
  | pub_merged _ | pub_pcl _ => false
  end.

(** The [num_nodes] a cycle gets for the decoded own map [own] against
    [baseline]. *)
Definition num_nodes_of (baseline : OcTree) (own : option OcTree) : option Z :=
  snd <$> build_diff_tree baseline own empty_tree.

(** What the branch [num_nodes > map_thresh] owns: the baseline, the
    outbound diffs, their count and the publications about them. *)
Definition diff_state (s : OctomapMerger)
    : OcTree * OctomapArray * Z * list Publication :=
  (tree_old s, mapdiffs s, num_diffs s,
   filter (λ p, is_diff_publication p = true) (published s)).

(** The state once a sequence number is recorded and its diff decoded. *)
Definition recorded_state (nid : string) (m : Octomap) (s : OctomapMerger)
    : OctomapMerger :=
  set_tree_temp (msgToMap (octo_type s) m)
    (set_seqs (<[c_str nid :=
                 ledger s nid ++ [to_int (to_uint32 (hseq (header m)))]]> (seqs s)) s).

(** The outbound diffs are numbered: [num_octomaps] and the length of the
    list are [num_diffs], and the diff at index [j] carries sequence
    number [j]. *)
Definition diffs_numbered (s : OctomapMerger) : Prop :=
  num_octomaps (mapdiffs s) = num_diffs s
  ∧ Z.of_nat (length (octomaps (mapdiffs s))) = num_diffs s
  ∧ ∀ j m, octomaps (mapdiffs s) !! j = Some m →
      hseq (header m) = to_uint32 (Z.of_nat j).


(** No sequence number is twice in a ledger entry. *)
Definition recorded_once (s : OctomapMerger) : Prop :=
  ∀ nid, NoDup (to_uint32 <$> ledger s nid).


(** What a cycle only reads: the parameters and the two inputs. *)
Definition inputs (s : OctomapMerger)
    : string * Z * Z * Octomap * OctomapNeighbors :=
  (type s, octo_type s, map_thresh s, myMap s, neighbors s).

(** Every own-map message of [own], diffed against [baseline], stays at or
    below the threshold (a message that does not decode counts as such). *)
Definition below_threshold (baseline : OcTree) (octo_type map_thresh : Z)
    (own : list Octomap) : Prop :=
  ∀ m n, m ∈ own →
    num_nodes_of baseline (msgToMap octo_type m) = Some n →
    n ≤ map_thresh.

(** The own-map messages a run can diff: the one held at its start and the
    ones that arrive. *)
Definition own_maps (s : OctomapMerger) (ticks : list (list Arrival * Z))
    : list Octomap :=
  myMap s :: (ticks ≫= λ t, t.1 ≫= λ a,
                match a with
                | arrive_myMap m => [m]
                | arrive_neighborMaps _ => []
                end).


(** The own-map messages and the neighbor batches among the arrivals of a
    tick, in the order of arrival. *)
Definition own_arrivals (arrivals : list Arrival) : list Octomap :=
  omap (λ a, match a with
             | arrive_myMap m => Some m
             | arrive_neighborMaps _ => None
             end) arrivals.

Definition neighbor_arrivals (arrivals : list Arrival)
    : list OctomapNeighbors :=
  omap (λ a, match a with
             | arrive_myMap _ => None
             | arrive_neighborMaps m => Some m
             end) arrivals.

(** A neighbor batch the loops can walk to the end: the counts do not
    exceed the arrays and every diff decodes. *)
Definition batch_decodes (octo_type : Z) (nbs : OctomapNeighbors) : Prop :=
  num_neighbors nbs ≤ Z.of_nat (length (neighbors_ nbs))
  ∧ ∀ nb, nb ∈ neighbors_ nbs →
      num_octomaps nb ≤ Z.of_nat (length (octomaps nb))
      ∧ ∀ m, m ∈ octomaps nb → msgToMap octo_type m ≠ None.

(** What [pub_pcl] has published. *)
Definition is_point_cloud (p : Publication) : bool :=
  match p with
  | pub_pcl _ => true
  | pub_merged _ | pub_size _ | pub_mapdiffs _ => false
  end.

Definition point_clouds (s : OctomapMerger) : list Publication :=
  filter (λ p, is_point_cloud p = true) (published s).


End Merger.
End Merger.

(** ** Concrete inputs

    An instance for the examples: log-odds are integers, in hundredths,
    with the clamping thresholds of the library (-2.00 and 3.51) and the
    occupancy threshold 0; the occupancy of a log-odds is the number itself;
    the payload of a message is the tree it decodes to, none for a message
    that does not decode. *)

Module Scenario.
Import Octree Merger.

Definition Tree : Type := OcTree (LogOdds := Z).
Definition Stamped : Type := OcTreeStamped (LogOdds := Z).
Definition Msg : Type := Octomap (Data := option Tree).
Definition State : Type := OctomapMerger (LogOdds := Z) (Data := option Tree).

#[export] Instance Z_float_ops : FloatOps Z :=
  {| float_lt := Z.ltb; clamping_thres_min := -200; clamping_thres_max := 351 |}.

#[export] Instance Z_double_ops : DoubleOps Z :=
  {| double_ne := λ a b, negb (a =? b) |}.

Definition decoder (m : Msg) : option Tree := mdata m.

Definition message (seq : Z) (payload : option Tree) : Msg :=
  {| header := {| hseq := seq; stamp := 0; frame_id := "world" |};
     id := "OcTree"; mdata := payload |}.

Definition merge_cycle : Z → State → outcome :=
  merge (λ v : Z, v) decoder decoder Some Some (λ _, None) (λ _, None) None
        (λ v, 0 <=? v).

Definition run_ticks : list (list Arrival * Z) → State → outcome :=
  run (λ v : Z, v) decoder decoder Some Some (λ _, None) (λ _, None) None
      (λ v, 0 <=? v).

Definition tick_once : list Arrival → Z → State → outcome :=
  tick (λ v : Z, v) decoder decoder Some Some (λ _, None) (λ _, None) None
       (λ v, 0 <=? v).


Definition neighbor_diff : string → Msg → State → outcome :=
  merge_neighbor_diff decoder decoder.

Definition neighbor_loops : State → outcome := merge_neighbors decoder decoder.

(** Two keys and the eight keys of one block of 2x2x2 voxels. *)
Definition key_a : OcTreeKey := mkKey 32768 32768 32768.
Definition key_b : OcTreeKey := mkKey 32770 32768 32768.

Definition block_keys : list OcTreeKey :=
  (λ pos : octant, mkKey (32768 + N.b2n pos.1.1) (32768 + N.b2n pos.1.2)
                         (32768 + N.b2n pos.2)) <$> octants.

Definition tree_of (leaves : list (OcTreeKey * Z)) : Tree :=
  foldl (λ t kv, (setNodeValue kv.1 kv.2 t).1) empty_tree leaves.

(** One voxel. *)
Definition tree_a : Tree := tree_of [(key_a, 9)].
(** Two voxels. *)
Definition tree_ab : Tree := tree_of [(key_a, 9); (key_b, -4)].
(** A block of eight voxels with one value: [setNodeValue] has pruned it to
    one node. *)
Definition tree_block : Tree := tree_of ((λ k, (k, 7)) <$> block_keys).

(** A merged map in which [key_a] was claimed by an authoritative merge. *)
Definition merged_a : Stamped := write_node 1 empty_tree key_a 9.

Definition robot : State := new_OctomapMerger None "robot" 0 50.
Definition base : State := new_OctomapMerger None "base" 0 50.

(** Neighbor "A" with a batch of diffs. *)
Definition batch (diffs : list Msg) : OctomapNeighbors :=
  {| num_neighbors := 1;
     neighbors_ := [ {| owner := "A"; num_octomaps := Z.of_nat (length diffs);
                        octomaps := diffs |} ] |}.

(** [n] voxels in a row. *)
Definition row (n : nat) : Tree :=
  tree_of ((λ i, (mkKey (N.of_nat i) 7 7, 3)) <$> seq 1 n).

(** The ticks of a robot whose map grows from nothing to five and then six
    voxels. *)
Definition small_ticks : list (list Arrival * Z) :=
  [ ([arrive_myMap (message 0 (Some (row 5)))], 10);
    ([arrive_myMap (message 0 (Some (row 6)))], 20) ].

(** Neighbor "A" has had sequence number 2147483648 merged. *)
Definition after_large_seq : State :=
  state_of (neighbor_diff "A" (message 2147483648 (Some tree_a)) robot).


(** Seven voxels of the block, all but [key_a], and [key_a] alone, with the
    block's value. *)
Definition tree_seven : Tree := tree_of ((λ k, (k, 7)) <$> tail block_keys).
Definition tree_eighth : Tree := tree_of [(key_a, 7)].
Definition key_sibling : OcTreeKey := mkKey 32769 32768 32768.

(** A merged map that got the seven voxels from a neighbor. *)
Definition merged_seven : Stamped :=
  default empty_tree (fst <$> merge_maps empty_tree (Some tree_seven) false true).

(** A robot that has claimed [key_a] and holds a neighbor's diff with
    another value for it. *)
Definition with_claimed : State :=
  set_tree_merged merged_a
    (callback_neighborMaps (batch [message 0 (Some (tree_of [(key_a, 2)]))])
       robot).

(** A robot with threshold 1 that has received a map of two voxels. *)
Definition robot_low : State :=
  callback_myMap (message 0 (Some tree_ab)) (new_OctomapMerger None "robot" 0 1).

(** In one tick an own map that does not decode and a neighbor batch
    arrive. *)
Definition bad_own_map : list Arrival :=
  [ arrive_myMap (message 0 None);
    arrive_neighborMaps (batch [message 0 (Some tree_a)]) ].


(** A base station with threshold 1 that has received a map of two voxels,
    one occupied and one free. *)
Definition base_low : State :=
  callback_myMap (message 0 (Some tree_ab)) (new_OctomapMerger None "base" 0 1).

(** A robot that holds an own map and a neighbor's diff. *)
Definition robot_full : State :=
  callback_myMap (message 0 (Some tree_ab)) with_claimed.

(** Two own maps that arrive before one tick. *)
Definition two_own_maps : list Arrival :=
  [ arrive_myMap (message 0 None); arrive_myMap (message 1 (Some tree_a)) ].


(** A tree as [fullMsgToMap] builds it: every node holds the value the
    message carries, whatever the clamping range. *)
Definition decoded_tree_of (leaves : list (OcTreeKey * Z)) : Tree :=
  foldl (λ t kv, (setNodeValue_with (λ _, kv.2) kv.1 t).1) empty_tree leaves.

(** Two voxels outside the clamping range: log-odds 9.00 and -9.00. *)
Definition tree_hot : Tree := decoded_tree_of [(key_a, 900); (key_b, -900)].

(** A robot that holds a batch of two diffs of neighbor "A": the first does
    not decode, the second does. *)
Definition bad_batch : State :=
  callback_neighborMaps (batch [message 0 None; message 1 (Some tree_a)]) robot.

Definition neighbor_batch_loop : nat → State → outcome :=
  merge_neighbor decoder decoder.

(** A second instance, for values with a NaN: [None] is the NaN, [<] with
    it is false and [!=] with it is true. *)
#[export] Instance nan_float_ops : FloatOps (option Z) :=
  {| float_lt := λ a b, match a, b with
                        | Some x, Some y => x <? y
                        | _, _ => false
                        end;
     clamping_thres_min := Some (-200);
     clamping_thres_max := Some 351 |}.

#[export] Instance nan_double_ops : DoubleOps (option Z) :=
  {| double_ne := λ a b, match a, b with
                         | Some x, Some y => negb (x =? y)
                         | _, _ => true
                         end |}.

(** One voxel whose log-odds is a NaN, as a full message can deliver it. *)
Definition tree_nan : OcTree (LogOdds := option Z) :=
  (setNodeValue_with (λ _, None) key_a empty_tree).1.

End Scenario.


(** ** Facts about the octree operations *)

Module OctreeFacts.
Import Octree.

Section Node.
Context {A : Type} `{EqDecision A}.
Implicit Types (n : OcNode A) (cs : gmap octant (OcNode A)) (t : OcTreeBase A)
  (node : option (OcNode A)) (write : option A → A) (g : A → A) (a : A).

Lemma elem_of_octants (pos : octant) : pos ∈ octants.
Proof.
  apply list_elem_of_In. destruct pos as [[[] []] []]; simpl; tauto.
Qed.

Lemma NoDup_octants : NoDup octants.
Proof. apply (bool_decide_unpack _). reflexivity. Qed.

Lemma expandNode_lookup (a : A) (pos : octant) :
  expandNode a !! pos = Some (Leaf a).
Proof.
  unfold expandNode. apply elem_of_list_to_map.
  - rewrite <- list_fmap_compose.
    apply NoDup_fmap_2; [intros x y; simpl; congruence | apply NoDup_octants].
  - apply list_elem_of_fmap. exists pos. split; [done | apply elem_of_octants].
Qed.

Lemma isNodeCollapsible_Some cs (a : A) :
  isNodeCollapsible cs = Some a → ∀ pos, cs !! pos = Some (Leaf a).
Proof.
  unfold isNodeCollapsible.
  destruct (cs !! (false, false, false)) as [[b|]|] eqn:E0; try discriminate.
  destruct (forallb _ _) eqn:Hall; [|discriminate].
  intros [= ->] pos.
  rewrite forallb_forall in Hall.
  destruct (decide (pos = (false, false, false))) as [->|Hne]; [done|].
  assert (Hin : In pos (tail octants)).
  { destruct pos as [[[] []] []]; simpl; tauto. }
  specialize (Hall pos Hin).
  destruct (cs !! pos) as [[c|]|]; try discriminate.
  apply bool_decide_eq_true in Hall. by subst.
Qed.

Lemma search_rec_Leaf {d} (key : vec octant d) (a : A) :
  search_rec key (Leaf a) = Some a.
Proof. by destruct key. Qed.

Lemma children_of_search {d} node pos (key : vec octant d) :
  children_of node !! pos ≫= search_rec key = node ≫= search_rec (pos ::: key).
Proof.
  destruct node as [[a|cs]|]; simpl; [|done|done].
  rewrite expandNode_lookup. simpl. apply search_rec_Leaf.
Qed.

Lemma setNodeValueRecurs_cons {d} write pos (key : vec octant d) node :
  setNodeValueRecurs write (pos ::: key) node =
    let cs := children_of node in
    let cr := setNodeValueRecurs write key (cs !! pos) in
    let cs' := <[pos := cr.1]> cs in
    match isNodeCollapsible cs' with
    | Some a => (Leaf a, 0%nat)
    | None => (Inner cs', S cr.2)
    end.
Proof.
  simpl. fold (children_of node).
  by destruct (setNodeValueRecurs write key (children_of node !! pos)).
Qed.

Lemma search_setNodeValueRecurs_eq {d} write (key : vec octant d) node :
  search_rec key (setNodeValueRecurs write key node).1
  = Some (write (node ≫= search_rec key)).
Proof.
  revert node. induction key as [|pos d key IH]; intros node.
  - simpl. by destruct node as [[|]|].
  - rewrite setNodeValueRecurs_cons. cbv zeta.
    rewrite <- children_of_search.
    specialize (IH (children_of node !! pos)).
    destruct (isNodeCollapsible _) as [a|] eqn:Hc; simpl.
    + apply isNodeCollapsible_Some with (pos := pos) in Hc.
      rewrite lookup_insert_eq in Hc. injection Hc as Hc.
      rewrite Hc in IH. rewrite search_rec_Leaf in IH. done.
    + by rewrite lookup_insert_eq.
Qed.

Lemma search_setNodeValueRecurs_ne {d} write (key key' : vec octant d) node :
  key ≠ key' →
  search_rec key' (setNodeValueRecurs write key node).1 = node ≫= search_rec key'.
Proof.
  revert key' node. induction key as [|pos d key IH]; intros key' node Hne.
  - inv_vec key'. done.
  - inv_vec key'; intros pos' key' Hne.
    rewrite setNodeValueRecurs_cons. cbv zeta.
    rewrite <- children_of_search.
    assert (Hgoal : search_rec (pos' ::: key')
              (Inner (<[pos:=(setNodeValueRecurs write key (children_of node !! pos)).1]>
                 (children_of node)))
            = children_of node !! pos' ≫= search_rec key').
    { simpl. destruct (decide (pos = pos')) as [->|Hp].
      - rewrite lookup_insert_eq. simpl. apply IH. congruence.
      - by rewrite lookup_insert_ne. }
    destruct (isNodeCollapsible _) as [a|] eqn:Hc; [|done].
    rewrite <- Hgoal. simpl.
    apply isNodeCollapsible_Some with (pos := pos') in Hc.
    rewrite Hc. simpl. by rewrite search_rec_Leaf.
Qed.

Lemma deref_setNodeValueRecurs {d} write (key : vec octant d) node :
  deref (setNodeValueRecurs write key node).2 key
        (setNodeValueRecurs write key node).1
  = Some (write (node ≫= search_rec key)).
Proof.
  revert node. induction key as [|pos d key IH]; intros node.
  - simpl. by destruct node as [[|]|].
  - pose proof (search_setNodeValueRecurs_eq write (pos ::: key) node) as Hs.
    rewrite setNodeValueRecurs_cons in *. cbv zeta in *.
    destruct (isNodeCollapsible _) as [a|] eqn:Hc; simpl in *.
    + done.
    + rewrite lookup_insert_eq. simpl. rewrite IH.
      by rewrite children_of_search.
Qed.

Lemma deref_search {d} r (key : vec octant d) n a :
  deref r key n = Some a → search_rec key n = Some a.
Proof.
  revert d key n. induction r as [|r IH]; intros d key n.
  - simpl. destruct n; [|done]. intros [= ->]. apply search_rec_Leaf.
  - simpl. destruct n as [|cs]; [done|]. destruct key as [|pos d key]; [done|].
    simpl. destruct (cs !! pos) as [c|]; [|done]. simpl. apply IH.
Qed.

Lemma search_modifyRecurs_eq {d} g r (key : vec octant d) n a :
  deref r key n = Some a →
  search_rec key (modifyRecurs g r key n) = Some (g a).
Proof.
  revert d key n. induction r as [|r IH]; intros d key n.
  - simpl. destruct n; [|done]. intros [= ->]. apply search_rec_Leaf.
  - simpl. destruct n as [|cs]; [done|]. destruct key as [|pos d key]; [done|].
    simpl. rewrite lookup_alter_eq.
    destruct (cs !! pos) as [c|]; [|done]. simpl. apply IH.
Qed.

Lemma search_modifyRecurs_other {d} g r (key key' : vec octant d) n a :
  deref r key n = Some a →
  search_rec key' (modifyRecurs g r key n) = search_rec key' n
  ∨ (search_rec key' n = Some a
     ∧ search_rec key' (modifyRecurs g r key n) = Some (g a)).
Proof.
  revert d key key' n. induction r as [|r IH]; intros d key key' n.
  - simpl. destruct n; [|done]. intros [= ->]. right.
    by rewrite !search_rec_Leaf.
  - simpl. destruct n as [|cs]; [done|]. revert key'.
    destruct key as [|pos d key]; [done|]. intros key'.
    inv_vec key'; intros pos' key'. simpl.
    destruct (decide (pos = pos')) as [->|Hp].
    + rewrite lookup_alter_eq. destruct (cs !! pos') as [c|]; [|done]. simpl.
      apply IH.
    + rewrite lookup_alter_ne by done. by left.
Qed.

Lemma expandRecurs_S d n :
  expandRecurs (S d) n = Inner (expandRecurs d <$> children_of (Some n)).
Proof. by destruct n. Qed.

Lemma search_expandRecurs {d} (key : vec octant d) n :
  search_rec key (expandRecurs d n) = search_rec key n.
Proof.
  revert n. induction key as [|pos d key IH]; intros n; [done|].
  rewrite expandRecurs_S.
  change (search_rec (pos ::: key) n) with (Some n ≫= search_rec (pos ::: key)).
  rewrite <- children_of_search. generalize (children_of (Some n)). intros cs.
  simpl. rewrite lookup_fmap. destruct (cs !! pos); simpl; [apply IH|done].
Qed.

Lemma leafs_rec_Inner d cs :
  leafs_rec (S d) (Inner cs)
  = octants ≫= λ pos, match cs !! pos with
                      | Some c => (λ ka, (pos ::: ka.1, ka.2)) <$> leafs_rec d c
                      | None => []
                      end.
Proof. done. Qed.

Lemma elem_of_leafs_rec_Inner d cs pos (key : vec octant d) a :
  (pos ::: key, a) ∈ leafs_rec (S d) (Inner cs)
  ↔ ∃ c, cs !! pos = Some c ∧ (key, a) ∈ leafs_rec d c.
Proof.
  rewrite leafs_rec_Inner, list_elem_of_bind. split.
  - intros (pos' & Hin & _).
    destruct (cs !! pos') as [c|] eqn:E; [|by apply elem_of_nil in Hin].
    apply list_elem_of_fmap in Hin as ([key' a'] & Heq & Hin). simpl in Heq.
    pose proof (f_equal fst Heq) as Hkey. pose proof (f_equal snd Heq) as Ha.
    simpl in Hkey, Ha. subst a'.
    pose proof (vcons_inj_1 _ _ _ _ Hkey) as <-.
    pose proof (vcons_inj_2 _ _ _ _ Hkey) as <-. eauto.
  - intros (c & E & Hin). exists pos. split; [|apply elem_of_octants].
    rewrite E. apply list_elem_of_fmap. by exists (key, a).
Qed.

Lemma elem_of_leafs_rec_expandRecurs {d} (key : vec octant d) n a :
  (key, a) ∈ leafs_rec d (expandRecurs d n) ↔ search_rec key n = Some a.
Proof.
  revert n. induction key as [|pos d key IH]; intros n.
  - simpl. destruct n as [b|cs]; simpl.
    + rewrite list_elem_of_singleton. split; [by intros [= ->]|by intros [= ->]].
    + rewrite elem_of_nil. split; [done|discriminate].
  - rewrite expandRecurs_S, elem_of_leafs_rec_Inner.
    change (search_rec (pos ::: key) n) with (Some n ≫= search_rec (pos ::: key)).
    rewrite <- children_of_search. generalize (children_of (Some n)). intros cs.
    setoid_rewrite lookup_fmap.
    destruct (cs !! pos) as [c0|]; simpl.
    + rewrite <- IH. split; [by intros (c & [= <-] & ?)|eauto].
    + split; [by intros (c & ? & ?)|discriminate].
Qed.

Lemma fmap_list_bind {B C D} (f : C → D) (h : B → list C) (l : list B) :
  f <$> (l ≫= h) = l ≫= λ x, f <$> h x.
Proof.
  induction l as [|x l IH]; csimpl; [done|]. by rewrite fmap_app, IH.
Qed.

Lemma NoDup_leafs_rec d n : NoDup (leafs_rec d n).*1.
Proof.
  revert n. induction d as [|d IH]; intros n.
  - destruct n; simpl; [apply NoDup_singleton|apply NoDup_nil_2].
  - destruct n as [a|cs]; [apply NoDup_singleton|].
    rewrite leafs_rec_Inner, fmap_list_bind. apply NoDup_bind; [| |apply NoDup_octants].
    + intros pos1 pos2 key _ _ H1 H2. simpl in *.
      destruct (cs !! pos1) as [c1|]; [|by apply elem_of_nil in H1].
      destruct (cs !! pos2) as [c2|]; [|by apply elem_of_nil in H2].
      rewrite <- list_fmap_compose in H1, H2.
      apply list_elem_of_fmap in H1 as (? & -> & _).
      apply list_elem_of_fmap in H2 as (? & Heq & _). simpl in Heq.
      by apply vcons_inj_1 in Heq.
    + intros pos _. simpl. destruct (cs !! pos) as [c|]; [|apply NoDup_nil_2].
      rewrite <- list_fmap_compose.
      specialize (IH c). revert IH. generalize (leafs_rec d c). intros l Hl.
      assert (Heq : (fst ∘ (λ ka : vec octant d * A, (pos ::: ka.1, ka.2))) <$> l
                    = vcons pos <$> l.*1).
      { rewrite <- list_fmap_compose. by apply list_fmap_ext. }
      rewrite Heq. apply NoDup_fmap_2; [|done].
      intros x y. apply vcons_inj_2.
Qed.

Lemma tree_depth_pred_lt : (tree_depth - 1 < tree_depth)%nat.
Proof. unfold tree_depth. lia. Qed.

Lemma search_pruneRecurs {d} j (key : vec octant d) n :
  (j < d)%nat → search_rec key (pruneRecurs j n).1 = search_rec key n.
Proof.
  revert d key n. induction j as [|j IH]; intros d key n Hj.
  - destruct key as [|pos d key]; [lia|].
    unfold pruneRecurs, pruneNode. destruct n as [a|cs]; [done|].
    destruct (isNodeCollapsible cs) as [a|] eqn:Hc; [|done].
    simpl. rewrite (isNodeCollapsible_Some cs a Hc pos). simpl.
    by destruct key.
  - destruct key as [|pos d key]; [lia|].
    destruct n as [a|cs]; [done|]. simpl.
    rewrite !lookup_fmap. destruct (cs !! pos) as [c|]; [|done]. simpl.
    apply IH. lia.
Qed.

Lemma search_prune_loop {d} depth (key : vec octant d) n :
  (depth < d)%nat → search_rec key (prune_loop depth n) = search_rec key n.
Proof.
  revert n. induction depth as [|depth IH]; intros n Hd; [done|].
  cbn [prune_loop].
  pose proof (search_pruneRecurs (S depth) key n Hd) as Hp.
  destruct (pruneRecurs (S depth) n) as [n' num_pruned]. simpl in Hp.
  destruct (num_pruned =? 0)%nat; [done|].
  rewrite IH by lia. done.
Qed.


(** The same facts for a whole tree. *)

Local Opaque tree_depth.

Lemma search_expand t key : search (expand t) key = search t key.
Proof.
  unfold search, expand. simpl. destruct (root t); simpl; [|done].
  apply search_expandRecurs.
Qed.

Lemma expandRecurs_idemp d n :
  expandRecurs d (expandRecurs d n) = expandRecurs d n.
Proof.
  revert n. induction d as [|d IH]; intros n; [done|].
  rewrite (expandRecurs_S d n).
  generalize (children_of (Some n)). intros cs. simpl.
  f_equal. rewrite <- map_fmap_compose. apply map_fmap_ext.
  intros pos c _. apply IH.
Qed.

Lemma expand_idemp t : expand (expand t) = expand t.
Proof.
  unfold expand. destruct t as [[n|]]; simpl; [|done].
  by rewrite expandRecurs_idemp.
Qed.


Lemma search_prune t key : search (prune t) key = search t key.
Proof.
  unfold search, prune. simpl. destruct (root t); simpl; [|done].
  apply search_prune_loop, tree_depth_pred_lt.
Qed.


Lemma elem_of_leafs_expand t key a :
  (key, a) ∈ leafs (expand t) ↔ search t key = Some a.
Proof.
  unfold leafs, search, expand. simpl. destruct (root t); simpl.
  - apply elem_of_leafs_rec_expandRecurs.
  - rewrite elem_of_nil. split; [done|discriminate].
Qed.

Lemma NoDup_leafs t : NoDup (leafs t).*1.
Proof.
  unfold leafs. destruct (root t); [apply NoDup_leafs_rec|apply NoDup_nil_2].
Qed.

Lemma search_empty_tree key : search (empty_tree : OcTreeBase A) key = None.
Proof. done. Qed.

Lemma search_setNodeValue_with_eq write key t :
  search (setNodeValue_with write key t).1 key = Some (write (search t key)).
Proof.
  unfold setNodeValue_with, search.
  pose proof (search_setNodeValueRecurs_eq write key (root t)) as Hs.
  destruct (setNodeValueRecurs write key (root t)). done.
Qed.

Lemma search_setNodeValue_with_ne write key key' t :
  key ≠ key' →
  search (setNodeValue_with write key t).1 key' = search t key'.
Proof.
  intros Hne. unfold setNodeValue_with, search.
  pose proof (search_setNodeValueRecurs_ne write key key' (root t) Hne) as Hs.
  destruct (setNodeValueRecurs write key (root t)). done.
Qed.

(** A write through the pointer [setNodeValue] returned reaches the node
    [search] finds for the key, and only keys that resolve to that same
    node see it. *)
Lemma search_modify_setNodeValue_with write g key t key' :
  let r := setNodeValue_with write key t in
  search (modify g r.2 r.1) key = Some (g (write (search t key)))
  ∧ (search (modify g r.2 r.1) key' = search r.1 key'
     ∨ (search r.1 key' = search r.1 key
        ∧ search (modify g r.2 r.1) key' = Some (g (write (search t key))))).
Proof.
  pose proof (search_setNodeValue_with_eq write key t) as Hs.
  unfold setNodeValue_with, search, modify in *.
  pose proof (deref_setNodeValueRecurs write key (root t)) as Hd.
  destruct (setNodeValueRecurs write key (root t)) as [n r]. simpl in *.
  split.
  - by apply search_modifyRecurs_eq.
  - destruct (search_modifyRecurs_other g r key key' n _ Hd) as [->|[-> ->]].
    + by left.
    + right. by rewrite Hs.
Qed.


Lemma search_leafs_rec {d} (key : vec octant d) n a :
  (key, a) ∈ leafs_rec d n → search_rec key n = Some a.
Proof.
  revert n. induction key as [|pos d key IH]; intros n.
  - destruct n as [b|cs]; simpl.
    + intros Hin%list_elem_of_singleton. by injection Hin as <-.
    + by intros Hin%elem_of_nil.
  - destruct n as [b|cs].
    + simpl. intros Hin%list_elem_of_singleton.
      pose proof (f_equal snd Hin) as Ha. simpl in Ha. by subst.
    + rewrite elem_of_leafs_rec_Inner. intros (c & Hc & Hin).
      simpl. rewrite Hc. simpl. by apply IH.
Qed.

(** A leaf the iterator reports is found by [search] under the key
    reported for it. *)
Lemma search_leafs t key a : (key, a) ∈ leafs t → search t key = Some a.
Proof.
  unfold leafs, search. destruct (root t) as [n|]; simpl.
  - apply search_leafs_rec.
  - by intros Hin%elem_of_nil.
Qed.


End Node.
End OctreeFacts.

(** ** Facts about merge_maps and build_diff_tree *)

Module MergerFacts.
Import Octree OctreeFacts Merger.
Local Opaque tree_depth.

Section MergeMaps.
Context {LogOdds : Type} `{EqDecision LogOdds} `{float_ops : FloatOps LogOdds}.
Implicit Types (t dest : OcTreeStamped (LogOdds := LogOdds)) (src : OcTree (LogOdds := LogOdds))
  (key k : OcTreeKey) (v : LogOdds).

Local Abbreviation stamped v ts := {| value := v; timestamp := ts |}.

(** The clamp leaves a value that is not below [clamping_thres_min] and not
    above [clamping_thres_max] as it is. *)
Lemma clamp_in_range v :
  float_lt v clamping_thres_min = false →
  float_lt clamping_thres_max v = false →
  clamp v = v.
Proof.
  intros Hmin Hmax. unfold clamp, std_max, std_min. by rewrite Hmin, Hmax.
Qed.

Lemma search_write_node_eq ts t key v :
  search (write_node ts t key v) key = Some (stamped (clamp v) ts).
Proof.
  unfold write_node, setNodeValueStamped, setTimestamp.
  pose proof (search_modify_setNodeValue_with
    (λ o, stamped (clamp v) (default 0 (timestamp <$> o)))
    (λ n, stamped (value n) ts) key t key) as [Hs _].
  destruct (setNodeValue_with _ key t) as [t' p]. exact Hs.
Qed.

Lemma search_write_node_ne ts t key v k :
  key ≠ k →
  search (write_node ts t key v) k = search t k
  ∨ (search t k = Some (stamped (clamp v) (default 0 (timestamp <$> search t key)))
     ∧ search (write_node ts t key v) k = Some (stamped (clamp v) ts)).
Proof.
  intros Hne. unfold write_node, setNodeValueStamped, setTimestamp.
  pose proof (search_modify_setNodeValue_with
    (λ o, stamped (clamp v) (default 0 (timestamp <$> o)))
    (λ n, stamped (value n) ts) key t k) as [_ Hs].
  pose proof (search_setNodeValue_with_ne
    (λ o, stamped (clamp v) (default 0 (timestamp <$> o))) key k t Hne) as Hk.
  pose proof (search_setNodeValue_with_eq
    (λ o, stamped (clamp v) (default 0 (timestamp <$> o))) key t) as Hkey.
  destruct (setNodeValue_with _ key t) as [t' p]. simpl in *.
  destruct Hs as [Hs|[Hs1 Hs2]].
  - left. congruence.
  - right. split; [congruence|done].
Qed.

Lemma merge_maps_body_unfold replace overwrite ts t key v :
  merge_maps_body replace overwrite ts t (key, v)
  = match search t key with
    | Some nodeIn1 =>
        if replace || (overwrite && (timestamp nodeIn1 =? 0))
        then write_node ts t key v else t
    | None => write_node ts t key v
    end.
Proof. done. Qed.

Lemma merge_maps_Some dest src replace overwrite :
  merge_maps dest (Some src) replace overwrite
  = Some (foldl (merge_maps_body replace overwrite (if replace then 1 else 0))
            dest (leafs (expand src)), expand src).
Proof. done. Qed.

(** No key is lost by one step of the loop. *)
Lemma merge_maps_body_is_Some replace overwrite ts t leaf k :
  is_Some (search t k) →
  is_Some (search (merge_maps_body replace overwrite ts t leaf) k).
Proof.
  intros Hk. destruct leaf as [key v]. rewrite merge_maps_body_unfold.
  assert (Hw : is_Some (search (write_node ts t key v) k)).
  { destruct (decide (key = k)) as [->|Hne].
    - rewrite search_write_node_eq. eauto.
    - destruct (search_write_node_ne ts t key v k Hne) as [->|[_ ->]]; eauto. }
  destruct (search t key) as [n|]; [|done].
  by destruct (replace || _).
Qed.

(** A step of an authoritative merge keeps a node that is already claimed
    with the value of another key of the source. *)
Lemma merge_maps_body_replace_keeps overwrite t key v k w :
  key ≠ k →
  search t k = Some (stamped w 1) →
  search (merge_maps_body true overwrite 1 t (key, v)) k = Some (stamped w 1).
Proof.
  intros Hne Hk. rewrite merge_maps_body_unfold. simpl.
  assert (Hw : search (write_node 1 t key v) k = Some (stamped w 1)).
  { destruct (search_write_node_ne 1 t key v k Hne) as [->|[H1 ->]]; [done|].
    rewrite Hk in H1. by injection H1 as ->. }
  by destruct (search t key).
Qed.

(** Without [replace], a step changes at most the node of its own key, and
    only when that key is absent or unclaimed. *)
Lemma merge_maps_body_no_replace overwrite t key v k :
  search (merge_maps_body false overwrite 0 t (key, v)) k = search t k
  ∨ (k = key
     ∧ (search t key = None ∨ ∃ n, search t key = Some n ∧ timestamp n = 0)
     ∧ search (merge_maps_body false overwrite 0 t (key, v)) k
       = Some (stamped (clamp v) 0)).
Proof.
  rewrite merge_maps_body_unfold. simpl.
  assert (Hw : (search t key = None ∨ ∃ n, search t key = Some n ∧ timestamp n = 0) →
     search (write_node 0 t key v) k = search t k
     ∨ (k = key ∧ search (write_node 0 t key v) k = Some (stamped (clamp v) 0))).
  { intros H0. destruct (decide (key = k)) as [->|Hne].
    - right. by rewrite search_write_node_eq.
    - left. destruct (search_write_node_ne 0 t key v k Hne) as [->|[H1 ->]]; [done|].
      rewrite H1. destruct H0 as [->|(n & -> & Hn)]; simpl; [done|by rewrite Hn]. }
  destruct (search t key) as [n|] eqn:Hkey.
  - destruct (overwrite && (timestamp n =? 0)) eqn:Hc; [|by left].
    apply andb_true_iff in Hc as [_ Hc]. apply Z.eqb_eq in Hc.
    destruct Hw as [Hw|[-> Hw]]; [eauto|by left|].
    right. split; [done|]. split; [eauto|done].
  - destruct Hw as [Hw|[-> Hw]]; [eauto|by left|].
    right. split; [done|]. split; [eauto|done].
Qed.


Lemma foldl_merge_maps_body_is_Some replace overwrite ts (l : list (OcTreeKey * LogOdds)) t k :
  is_Some (search t k) →
  is_Some (search (foldl (merge_maps_body replace overwrite ts) t l) k).
Proof.
  revert t. induction l as [|leaf l IH]; intros t Hk; [done|].
  simpl. apply IH. by apply merge_maps_body_is_Some.
Qed.

Lemma foldl_merge_maps_body_replace overwrite (l : list (OcTreeKey * LogOdds)) t k v :
  NoDup l.*1 → (k, v) ∈ l →
  search (foldl (merge_maps_body true overwrite 1) t l) k = Some (stamped (clamp v) 1).
Proof.
  induction l as [|[key w] l IH] using rev_ind; intros Hnd Hin.
  - by apply elem_of_nil in Hin.
  - rewrite foldl_snoc. rewrite fmap_app in Hnd.
    apply NoDup_app in Hnd as (Hnd & Hdisj & _).
    apply elem_of_app in Hin as [Hin|Hin].
    + apply merge_maps_body_replace_keeps; [|by apply IH].
      intros ->. apply (Hdisj k).
      * apply list_elem_of_fmap. by exists (k, v).
      * simpl. apply list_elem_of_here.
    + apply list_elem_of_singleton in Hin. injection Hin as -> ->.
      rewrite merge_maps_body_unfold. simpl.
      destruct (search _ key); apply search_write_node_eq.
Qed.

Lemma foldl_merge_maps_body_no_replace overwrite (l : list (OcTreeKey * LogOdds)) t k :
  let t' := foldl (merge_maps_body false overwrite 0) t l in
  search t' k = search t k
  ∨ ∃ v, (k, v) ∈ l
       ∧ (search t k = None ∨ ∃ n, search t k = Some n ∧ timestamp n = 0)
       ∧ search t' k = Some (stamped (clamp v) 0).
Proof.
  induction l as [|[key w] l IH] using rev_ind; [by left|].
  cbv zeta in *. rewrite foldl_snoc.
  destruct (merge_maps_body_no_replace overwrite
    (foldl (merge_maps_body false overwrite 0) t l) key w k)
    as [->|(-> & Hun & ->)].
  - destruct IH as [IH|(v & Hin & Hun & IH)]; [by left|].
    right. exists v. rewrite elem_of_app. eauto.
  - right. exists w. split; [rewrite elem_of_app, list_elem_of_singleton; eauto|].
    split; [|done].
    destruct IH as [IH|(v & Hin & Hun' & IH)]; [by rewrite <- IH|done].
Qed.

End MergeMaps.

Section BuildDiffTree.
Context {LogOdds Occ : Type} `{EqDecision LogOdds}.
Context `{float_ops : FloatOps LogOdds} `{double_ops : DoubleOps Occ}.
Context (probability : LogOdds → Occ).
Implicit Types (t baseline current diff : OcTree (LogOdds := LogOdds))
  (key k : OcTreeKey) (v w : LogOdds) (l : list (OcTreeKey * LogOdds)).

Lemma build_diff_tree_Some baseline current diff :
  build_diff_tree probability baseline (Some current) diff
  = let r := foldl (build_diff_tree_body probability baseline) (diff, 0)
               (leafs (expand current)) in
    Some (expand current, r.1, r.2).
Proof.
  unfold build_diff_tree.
  by destruct (foldl _ _ _).
Qed.

Lemma build_diff_tree_body_differs baseline diff n key v :
  differs probability baseline key v →
  build_diff_tree_body probability baseline (diff, n) (key, v)
  = ((setNodeValue key v diff).1,
     if search baseline key is None then n + 1 else n).
Proof.
  intros [Hk|(w & Hk & Hne)]; unfold build_diff_tree_body; rewrite Hk; [done|].
  by rewrite Hne.
Qed.

Lemma build_diff_tree_body_same baseline diff n key v :
  ¬ differs probability baseline key v →
  build_diff_tree_body probability baseline (diff, n) (key, v) = (diff, n).
Proof.
  intros Hd. unfold build_diff_tree_body.
  destruct (search baseline key) as [w|] eqn:Hk.
  - destruct (double_ne (probability w) (probability v)) eqn:Hne; [|done].
    destruct Hd. right. eauto.
  - destruct Hd. by left.
Qed.

Lemma differs_dec baseline k v : Decision (differs probability baseline k v).
Proof.
  unfold differs. destruct (search baseline k) as [w|].
  - destruct (double_ne (probability w) (probability v)) eqn:Hne.
    + left. right. eauto.
    + right. intros [?|(w' & [= <-] & ?)]; [done|congruence].
  - left. by left.
Qed.

Lemma search_setNodeValue_eq key v t :
  search (setNodeValue key v t).1 key = Some (clamp v).
Proof. apply search_setNodeValue_with_eq. Qed.

Lemma search_setNodeValue_ne key k v t :
  key ≠ k → search (setNodeValue key v t).1 k = search t k.
Proof. apply search_setNodeValue_with_ne. Qed.

Lemma foldl_build_diff_tree_body baseline diff n0 l k :
  NoDup l.*1 →
  let r := foldl (build_diff_tree_body probability baseline) (diff, n0) l in
  (∀ v, (k, v) ∈ l → differs probability baseline k v →
     search r.1 k = Some (clamp v))
  ∧ ((∀ v, (k, v) ∈ l → ¬ differs probability baseline k v) → search r.1 k = search diff k).
Proof.
  induction l as [|[key w] l IH] using rev_ind; intros Hnd; cbv zeta.
  - split; [by intros v Hin%elem_of_nil|done].
  - rewrite foldl_snoc. rewrite fmap_app in Hnd.
    apply NoDup_app in Hnd as (Hnd & Hdisj & _).
    destruct (IH Hnd) as [IH1 IH2]. clear IH.
    destruct (foldl _ _ l) as [d n] eqn:Hfold. simpl in IH1, IH2.
    assert (Hfresh : ∀ v, (key, v) ∈ l → False).
    { intros v Hin. apply (Hdisj key).
      - apply list_elem_of_fmap. by exists (key, v).
      - simpl. apply list_elem_of_here. }
    destruct (differs_dec baseline key w) as [Hd|Hd].
    + rewrite build_diff_tree_body_differs by done. simpl.
      destruct (decide (key = k)) as [->|Hne].
      * rewrite search_setNodeValue_eq. split.
        -- intros v [Hin|Hin%list_elem_of_singleton]%elem_of_app _.
           ++ by destruct (Hfresh v).
           ++ by injection Hin as ->.
        -- intros Hall. destruct (Hall w); [|done].
           rewrite elem_of_app, list_elem_of_singleton. by right.
      * rewrite search_setNodeValue_ne by done. split.
        -- intros v [Hin|Hin%list_elem_of_singleton]%elem_of_app Hv.
           ++ by apply IH1.
           ++ by injection Hin as -> ->.
        -- intros Hall. apply IH2. intros v Hin. apply Hall.
           rewrite elem_of_app. by left.
    + rewrite build_diff_tree_body_same by done. simpl. split.
      * intros v [Hin|Hin%list_elem_of_singleton]%elem_of_app Hv.
        -- by apply IH1.
        -- injection Hin as -> ->. done.
      * intros Hall. apply IH2. intros v Hin. apply Hall.
        rewrite elem_of_app. by left.
Qed.

Lemma foldl_build_diff_tree_body_count baseline diff n0 l :
  (foldl (build_diff_tree_body probability baseline) (diff, n0) l).2
  = n0 + Z.of_nat (length (filter (λ kv, search baseline kv.1 = None) l)).
Proof.
  induction l as [|[key w] l IH] using rev_ind; [simpl; lia|].
  rewrite foldl_snoc, filter_app, length_app.
  destruct (foldl _ _ l) as [d n]. simpl in IH. subst n.
  unfold build_diff_tree_body.
  destruct (search baseline key) as [u|] eqn:Hk.
  - rewrite filter_cons_False by (simpl; congruence).
    destruct (double_ne _ _); simpl; lia.
  - rewrite filter_cons_True by done. simpl. lia.
Qed.

Lemma foldl_build_diff_tree_body_same baseline diff n0 l :
  (∀ k v, (k, v) ∈ l → ¬ differs probability baseline k v) →
  foldl (build_diff_tree_body probability baseline) (diff, n0) l = (diff, n0).
Proof.
  induction l as [|[key w] l IH] using rev_ind; intros Hall; [done|].
  rewrite foldl_snoc, IH.
  - apply build_diff_tree_body_same, Hall.
    rewrite elem_of_app, list_elem_of_singleton. by right.
  - intros k v Hin. apply Hall. rewrite elem_of_app. by left.
Qed.

End BuildDiffTree.

Section MergeMapsClaims.
Context {LogOdds : Type} `{EqDecision LogOdds} `{float_ops : FloatOps LogOdds}.
Implicit Types (t dest : OcTreeStamped (LogOdds := LogOdds))
  (src : OcTree (LogOdds := LogOdds)) (key k : OcTreeKey) (v : LogOdds).

(** C1, as the code has it.  An authoritative merge ([replace = true],
    whatever [overwrite]) returns, and for every key that resolves to a node
    of the source the destination then has a node at that key with
    timestamp 1, whatever the destination held before.  Its value is the
    source's value clamped to the clamping range, as [setNodeValue] stores
    it: the source's value itself when that is within the range. *)
Theorem merge_maps_authoritative dest src overwrite :
  ∃ dest' src',
    merge_maps dest (Some src) true overwrite = Some (dest', src')
    ∧ (∀ k v, search src k = Some v →
         search dest' k = Some {| value := clamp v; timestamp := 1 |})
    ∧ (∀ k v, search src k = Some v →
         float_lt v clamping_thres_min = false →
         float_lt clamping_thres_max v = false →
         search dest' k = Some {| value := v; timestamp := 1 |}).
Proof.
  rewrite merge_maps_Some. eexists _, _. split; [done|].
  assert (Hall : ∀ k v, search src k = Some v →
            search (foldl (merge_maps_body true overwrite 1) dest
                      (leafs (expand src))) k
            = Some {| value := clamp v; timestamp := 1 |}).
  { intros k v Hk. apply foldl_merge_maps_body_replace.
    - apply NoDup_leafs.
    - by apply elem_of_leafs_expand. }
  split; [exact Hall|].
  intros k v Hk Hmin Hmax. rewrite (Hall k v Hk). by rewrite clamp_in_range.
Qed.

(** C2.  A conditional merge ([replace = false], [overwrite = true])
    returns; a node of the destination with timestamp 1 is found unchanged
    afterwards, also when its key is in the source; and every key resolves
    as before or to a node with timestamp 0 that holds the source's value as
    [setNodeValue] stores it (clamped to the clamping range). *)
Theorem merge_maps_conditional dest src :
  ∃ dest' src',
    merge_maps dest (Some src) false true = Some (dest', src')
    ∧ (∀ k n, search dest k = Some n → timestamp n = 1 →
         search dest' k = Some n)
    ∧ (∀ k, search dest' k = search dest k
          ∨ ∃ v, search src k = Some v
               ∧ search dest' k = Some {| value := clamp v; timestamp := 0 |}).
Proof.
  rewrite merge_maps_Some. eexists _, _. split; [done|]. split.
  - intros k n Hk Hn.
    destruct (foldl_merge_maps_body_no_replace true (leafs (expand src)) dest k)
      as [->|(v & _ & Hun & _)]; [done|].
    rewrite Hk in Hun. destruct Hun as [?|(n' & [= <-] & Hn')]; [done|lia].
  - intros k.
    destruct (foldl_merge_maps_body_no_replace true (leafs (expand src)) dest k)
      as [->|(v & Hin & _ & ->)]; [by left|].
    right. exists v. by rewrite <- elem_of_leafs_expand.
Qed.

(** C9.  Under every policy [merge_maps] returns and every key that
    resolved to a node of the destination still resolves to one. *)
Theorem merge_maps_never_removes dest src replace overwrite :
  ∃ dest' src',
    merge_maps dest (Some src) replace overwrite = Some (dest', src')
    ∧ ∀ k, is_Some (search dest k) → is_Some (search dest' k).
Proof.
  rewrite merge_maps_Some. eexists _, _. split; [done|].
  intros k. apply foldl_merge_maps_body_is_Some.
Qed.

End MergeMapsClaims.

Section BuildDiffTreeClaims.
Context {LogOdds Occ : Type} `{EqDecision LogOdds}.
Context `{float_ops : FloatOps LogOdds} `{double_ops : DoubleOps Occ}.
Context (probability : LogOdds → Occ).
Implicit Types (t baseline current diff : OcTree (LogOdds := LogOdds))
  (key k : OcTreeKey) (v w : LogOdds) (l : list (OcTreeKey * LogOdds)).

(** C3, as the code has it.  On an empty diff tree [build_diff_tree]
    returns a diff tree whose keys are the keys of [current] that are absent
    from [baseline] or whose occupancy there compares [!=] to the one in
    [current]; each is recorded with [current]'s value clamped to the
    clamping range, as [setNodeValue] stores it.  The count is the number of
    keys of [current] absent from [baseline].  A tree diffed against itself
    gives the empty tree and count 0 when none of its occupancies compares
    [!=] to itself (none is a NaN). *)
Theorem build_diff_tree_spec baseline current :
  ∃ current' diff n,
    build_diff_tree probability baseline (Some current) empty_tree
      = Some (current', diff, n)
    ∧ (∀ k u, search diff k = Some u ↔
         ∃ v, search current k = Some v
            ∧ (search baseline k = None
               ∨ ∃ w, search baseline k = Some w
                    ∧ double_ne (probability w) (probability v) = true)
            ∧ u = clamp v)
    ∧ (∃ new_keys : list OcTreeKey,
         NoDup new_keys
         ∧ (∀ k, k ∈ new_keys ↔
              is_Some (search current k) ∧ search baseline k = None)
         ∧ n = Z.of_nat (length new_keys))
    ∧ (baseline = current →
       (∀ k v, search current k = Some v →
          double_ne (probability v) (probability v) = false) →
       diff = empty_tree ∧ n = 0).
Proof.
  rewrite build_diff_tree_Some. cbv zeta. eexists _, _, _. split; [done|].
  set (l := leafs (expand current)).
  assert (Hl : ∀ k v, (k, v) ∈ l ↔ search current k = Some v).
  { intros k v. apply elem_of_leafs_expand. }
  assert (Hnd : NoDup l.*1) by apply NoDup_leafs.
  split; [|split].
  - intros k u.
    destruct (foldl_build_diff_tree_body probability baseline empty_tree 0 l k Hnd)
      as [H1 H2].
    split.
    + intros Hd. destruct (search current k) as [v|] eqn:Hcur.
      * destruct (differs_dec probability baseline k v) as [Hv|Hv].
        -- rewrite (H1 v (proj2 (Hl k v) Hcur) Hv) in Hd. injection Hd as <-.
           by exists v.
        -- rewrite H2 in Hd; [done|]. intros v' Hin%Hl. congruence.
      * rewrite H2 in Hd; [done|]. intros v' Hin%Hl. congruence.
    + intros (v & Hcur & Hd & ->). apply H1; [by apply Hl|done].
  - exists (filter (λ kv, search baseline kv.1 = None) l).*1. split; [|split].
    + assert (Hsub : (filter (λ kv, search baseline kv.1 = None) l).*1
                     `sublist_of` l.*1).
      { apply fmap_sublist, sublist_filter. }
      exact (sublist_NoDup _ _ Hnd Hsub).
    + intros k. rewrite list_elem_of_fmap. split.
      * intros ([k' v] & -> & [Hb Hin%Hl]%list_elem_of_filter). simpl in *. eauto.
      * intros [[v Hv] Hb]. exists (k, v). split; [done|].
        apply list_elem_of_filter. split; [done|by apply Hl].
    + rewrite foldl_build_diff_tree_body_count, length_fmap. lia.
  - intros -> Hself. rewrite foldl_build_diff_tree_body_same; [done|].
    intros k v Hin%Hl [Hk|(w & Hk & Hne)]; [congruence|].
    rewrite Hin in Hk. injection Hk as <-. rewrite (Hself k v Hin) in Hne. done.
Qed.

(** C8, as the code has it.  [build_diff_tree] reads [tree1] only through
    [search]; what it leaves in [tree2] is [tree2] expanded: every key
    resolves as before, but a node without children above the last level has
    been replaced by its descendants. *)
Theorem build_diff_tree_expands_current baseline current diff0 :
  ∃ diff n,
    build_diff_tree probability baseline (Some current) diff0
      = Some (expand current, diff, n)
    ∧ ∀ k, search (expand current) k = search current k.
Proof.
  rewrite build_diff_tree_Some. cbv zeta. eexists _, _. split; [done|].
  intros k. apply search_expand.
Qed.

End BuildDiffTreeClaims.

(** ** Further facts about build_diff_tree *)

Section BuildDiffTreeMore.
Context {LogOdds Occ : Type} `{EqDecision LogOdds}.
Context `{float_ops : FloatOps LogOdds} `{double_ops : DoubleOps Occ}.
Context (probability : LogOdds → Occ).
Implicit Types (t baseline current diff : OcTree (LogOdds := LogOdds))
  (key k : OcTreeKey) (v w : LogOdds) (l : list (OcTreeKey * LogOdds)).

(** Called on a diff tree that is not empty, [build_diff_tree] adds to it:
    a key of [current] that is new or differs from the baseline gets
    [current]'s value clamped to the clamping range, every other key
    resolves as it did in the diff tree passed in.  The count does not depend on the diff tree passed in, is
    never negative, and is 0 exactly when every key of [current] is in the
    baseline. *)
Theorem build_diff_tree_accumulates baseline current diff0 :
  ∃ current' diff n,
    build_diff_tree probability baseline (Some current) diff0
      = Some (current', diff, n)
    ∧ (∀ k v, search current k = Some v → differs probability baseline k v →
         search diff k = Some (clamp v))
    ∧ (∀ k, (∀ v, search current k = Some v →
               ¬ differs probability baseline k v) →
         search diff k = search diff0 k)
    ∧ num_nodes_of probability baseline (Some current) = Some n
    ∧ 0 ≤ n
    ∧ (n = 0 ↔ ∀ k, is_Some (search current k) → is_Some (search baseline k)).
Proof.
  rewrite build_diff_tree_Some. cbv zeta. eexists _, _, _. split; [done|].
  set (l := leafs (expand current)).
  assert (Hl : ∀ k v, (k, v) ∈ l ↔ search current k = Some v).
  { intros k v. apply elem_of_leafs_expand. }
  split; [|split; [|split; [|split]]].
  - intros k v Hk Hd.
    destruct (foldl_build_diff_tree_body probability baseline diff0 0 l k
                (NoDup_leafs _)) as [H1 _].
    apply H1; [by apply Hl|done].
  - intros k Hk.
    destruct (foldl_build_diff_tree_body probability baseline diff0 0 l k
                (NoDup_leafs _)) as [_ H2].
    apply H2. intros v Hin%Hl. by apply Hk.
  - unfold num_nodes_of. rewrite build_diff_tree_Some. cbv zeta. simpl.
    by rewrite !foldl_build_diff_tree_body_count.
  - rewrite foldl_build_diff_tree_body_count. lia.
  - rewrite foldl_build_diff_tree_body_count.
    set (new := filter (λ kv, search baseline kv.1 = None) l).
    split.
    + intros Hn k [v Hv].
      destruct (search baseline k) as [w|] eqn:Hb; [eauto|].
      assert (Hin : (k, v) ∈ new).
      { apply list_elem_of_filter. split; [done|by apply Hl]. }
      destruct new; [by apply elem_of_nil in Hin|simpl in Hn; lia].
    + intros Hall. destruct new as [|[k v] new'] eqn:Hnew; [done|].
      assert (Hin : (k, v) ∈ filter (λ kv, search baseline kv.1 = None) l).
      { fold new. rewrite Hnew. apply list_elem_of_here. }
      apply list_elem_of_filter in Hin as [Hb Hin%Hl]. simpl in Hb.
      destruct (Hall k) as [w Hw]; [eauto|]. congruence.
Qed.

End BuildDiffTreeMore.


(** ** Further facts about merge_maps *)

Section MergeMapsMore.
Context {LogOdds : Type} `{EqDecision LogOdds} `{float_ops : FloatOps LogOdds}.
Implicit Types (t dest : OcTreeStamped (LogOdds := LogOdds))
  (src : OcTree (LogOdds := LogOdds)) (key k : OcTreeKey) (v : LogOdds)
  (l : list (OcTreeKey * LogOdds)).

Local Abbreviation stamped v ts := {| value := v; timestamp := ts |}.

Lemma merge_maps_body_no_replace_eq overwrite t key v :
  search (merge_maps_body false overwrite 0 t (key, v)) key
  = Some (written overwrite (search t key) v).
Proof.
  rewrite merge_maps_body_unfold. unfold written. simpl.
  destruct (search t key) as [n|] eqn:Hk.
  - destruct (overwrite && (timestamp n =? 0)); [|done].
    apply search_write_node_eq.
  - apply search_write_node_eq.
Qed.

Lemma merge_maps_body_no_replace_ne overwrite t key v k :
  key ≠ k →
  search (merge_maps_body false overwrite 0 t (key, v)) k = search t k.
Proof.
  intros Hne.
  destruct (merge_maps_body_no_replace overwrite t key v k)
    as [->|(-> & _)]; done.
Qed.

Lemma foldl_merge_maps_body_no_replace_spec overwrite l t k :
  NoDup l.*1 →
  let t' := foldl (merge_maps_body false overwrite 0) t l in
  (k ∉ l.*1 → search t' k = search t k)
  ∧ (∀ v, (k, v) ∈ l → search t' k = Some (written overwrite (search t k) v)).
Proof.
  induction l as [|[key w] l IH] using rev_ind; intros Hnd; cbv zeta.
  - split; [done|]. by intros v Hin%elem_of_nil.
  - rewrite foldl_snoc. rewrite fmap_app in *.
    apply NoDup_app in Hnd as (Hnd & Hdisj & _).
    destruct (IH Hnd) as [IH1 IH2]. clear IH.
    assert (Hfresh : key ∉ l.*1).
    { intros Hin. apply (Hdisj key Hin). simpl. apply list_elem_of_here. }
    destruct (decide (key = k)) as [->|Hne].
    + split.
      * intros Hk. destruct Hk. rewrite elem_of_app. right. simpl.
        apply list_elem_of_here.
      * intros v [Hin|Hin%list_elem_of_singleton]%elem_of_app.
        -- destruct Hfresh. apply list_elem_of_fmap. by exists (k, v).
        -- injection Hin as ->.
           by rewrite merge_maps_body_no_replace_eq, IH1.
    + rewrite merge_maps_body_no_replace_ne by done. split.
      * intros Hk. apply IH1. intros Hin. apply Hk. rewrite elem_of_app. by left.
      * intros v [Hin|Hin%list_elem_of_singleton]%elem_of_app; [by apply IH2|].
        by injection Hin as -> ->.
Qed.

Lemma not_elem_of_leafs_expand src k :
  search src k = None → k ∉ (leafs (expand src)).*1.
Proof.
  intros Hk Hin. apply list_elem_of_fmap in Hin as ([k' v] & -> & Hin).
  apply elem_of_leafs_expand in Hin. simpl in *. congruence.
Qed.

Lemma merge_maps_no_replace_search dest src overwrite :
  ∃ dest' src',
    merge_maps dest (Some src) false overwrite = Some (dest', src')
    ∧ ∀ k, search dest' k
           = match search src k with
             | None => search dest k
             | Some v =>
                 match search dest k with
                 | None => Some {| value := clamp v; timestamp := 0 |}
                 | Some n =>
                     if overwrite && (timestamp n =? 0)
                     then Some {| value := clamp v; timestamp := 0 |}
                     else Some n
                 end
             end.
Proof.
  rewrite merge_maps_Some. eexists _, _. split; [done|]. intros k.
  destruct (foldl_merge_maps_body_no_replace_spec overwrite
              (leafs (expand src)) dest k (NoDup_leafs _)) as [H1 H2].
  destruct (search src k) as [v|] eqn:Hk.
  - rewrite (H2 v) by (by apply elem_of_leafs_expand).
    unfold written. destruct (search dest k) as [n|]; [|done].
    by destruct (overwrite && _).
  - apply H1. by apply not_elem_of_leafs_expand.
Qed.

(** What a merge without [replace] leaves at every key: the node the
    destination had when the source has none there, otherwise the source's
    value, clamped to the clamping range, with timestamp 0 where the
    destination had no node, or had one with timestamp 0 and [overwrite] is
    set, and the destination's node where it had any other. *)
Theorem merge_maps_no_replace_spec dest src overwrite :
  ∃ dest' src',
    merge_maps dest (Some src) false overwrite = Some (dest', src')
    ∧ ∀ k, search dest' k
           = match search src k with
             | None => search dest k
             | Some v =>
                 match search dest k with
                 | None => Some {| value := clamp v; timestamp := 0 |}
                 | Some n =>
                     if overwrite && (timestamp n =? 0)
                     then Some {| value := clamp v; timestamp := 0 |}
                     else Some n
                 end
             end.
Proof. apply merge_maps_no_replace_search. Qed.

Lemma foldl_merge_maps_body_additive_id l t :
  (∀ k v, (k, v) ∈ l → is_Some (search t k)) →
  foldl (merge_maps_body false false 0) t l = t.
Proof.
  induction l as [|[key w] l IH] using rev_ind; intros Hall; [done|].
  rewrite foldl_snoc, IH.
  - rewrite merge_maps_body_unfold.
    destruct (Hall key w) as [n ->]; [|done].
    rewrite elem_of_app, list_elem_of_singleton. by right.
  - intros k v Hin. apply (Hall k v). rewrite elem_of_app. by left.
Qed.

(** An additive-only merge is idempotent: merging the source again, as the
    first call left it or as it was, changes nothing. *)
Theorem merge_maps_additive_idempotent dest src dest' src' :
  merge_maps dest (Some src) false false = Some (dest', src') →
  merge_maps dest' (Some src') false false = Some (dest', src')
  ∧ merge_maps dest' (Some src) false false = Some (dest', src').
Proof.
  intros Hm.
  destruct (merge_maps_no_replace_search dest src false)
    as (d & s' & Hm' & Hspec).
  rewrite Hm in Hm'. injection Hm' as <- <-.
  rewrite merge_maps_Some in Hm. injection Hm as _ Hsrc.
  assert (Hid : foldl (merge_maps_body false false 0) dest'
                  (leafs (expand src)) = dest').
  { apply foldl_merge_maps_body_additive_id. intros k v Hin%elem_of_leafs_expand.
    rewrite Hspec, Hin. destruct (search dest k); eauto. }
  subst src'. rewrite !merge_maps_Some, expand_idemp, Hid. done.
Qed.

Lemma merge_maps_body_replace_ne overwrite t key v k :
  key ≠ k →
  search (merge_maps_body true overwrite 1 t (key, v)) k = search t k
  ∨ ∃ n, search t k = Some n
       ∧ search (merge_maps_body true overwrite 1 t (key, v)) k
         = Some (stamped (value n) 1).
Proof.
  intros Hne. rewrite merge_maps_body_unfold. simpl.
  assert (Hw : search (write_node 1 t key v) k = search t k
     ∨ ∃ n, search t k = Some n
          ∧ search (write_node 1 t key v) k = Some (stamped (value n) 1)).
  { destruct (search_write_node_ne 1 t key v k Hne) as [->|[H1 ->]]; [by left|].
    right. eexists. split; [exact H1|done]. }
  by destruct (search t key).
Qed.

Lemma foldl_merge_maps_body_replace_outside overwrite l t k :
  k ∉ l.*1 →
  let t' := foldl (merge_maps_body true overwrite 1) t l in
  search t' k = search t k
  ∨ ∃ n, search t k = Some n ∧ search t' k = Some (stamped (value n) 1).
Proof.
  induction l as [|[key w] l IH] using rev_ind; intros Hk; [by left|].
  cbv zeta in *. rewrite foldl_snoc. rewrite fmap_app in Hk.
  apply not_elem_of_app in Hk as [Hk1 Hk2].
  assert (Hne : key ≠ k).
  { intros ->. apply Hk2. simpl. apply list_elem_of_here. }
  destruct (merge_maps_body_replace_ne overwrite
              (foldl (merge_maps_body true overwrite 1) t l) key w k Hne)
    as [->|(n & Hn & ->)]; [by apply IH|].
  right. destruct (IH Hk1) as [IH'|(n' & Hn' & IH')].
  - exists n. by rewrite <- IH'.
  - exists n'. split; [done|]. rewrite IH' in Hn. by injection Hn as <-.
Qed.

(** An authoritative merge never changes the value of a node whose key is
    not in the source and never creates a node there; the node's timestamp
    stays or becomes 1. *)
Theorem merge_maps_replace_outside_source dest src overwrite k :
  search src k = None →
  ∃ dest' src',
    merge_maps dest (Some src) true overwrite = Some (dest', src')
    ∧ (search dest' k = search dest k
       ∨ ∃ n, search dest k = Some n
            ∧ search dest' k = Some {| value := value n; timestamp := 1 |}).
Proof.
  intros Hk. rewrite merge_maps_Some. eexists _, _. split; [done|].
  apply foldl_merge_maps_body_replace_outside.
  by apply not_elem_of_leafs_expand.
Qed.


End MergeMapsMore.

(** ** Facts about the merge cycle *)

Section Cycle.
Context {LogOdds Occ Data : Type} `{EqDecision LogOdds}.
Context `{float_ops : FloatOps LogOdds} `{double_ops : DoubleOps Occ}.
Context (probability : LogOdds → Occ).
Context (binaryMsgToMap fullMsgToMap : Octomap (Data := Data) → option (OcTree (LogOdds := LogOdds))).
Context (binaryData fullData : OcTree (LogOdds := LogOdds) → Data).
Context (binaryDataStamped fullDataStamped : OcTreeStamped (LogOdds := LogOdds) → Data).
Context (no_data : Data).
Context (isNodeOccupied : LogOdds → bool).

Local Notation "o >>> k" := (and_then o k) (at level 61, left associativity).
Local Abbreviation St := (OctomapMerger (LogOdds := LogOdds) (Data := Data)).
Local Abbreviation decode := (msgToMap binaryMsgToMap fullMsgToMap).
Local Abbreviation merge_neighbor_diff := (Merger.merge_neighbor_diff binaryMsgToMap fullMsgToMap).
Local Abbreviation merge_neighbor := (Merger.merge_neighbor binaryMsgToMap fullMsgToMap).
Local Abbreviation merge_neighbors := (Merger.merge_neighbors binaryMsgToMap fullMsgToMap).
Local Abbreviation publish_diff := (Merger.publish_diff binaryData fullData).
Local Abbreviation publish_merged := (Merger.publish_merged binaryDataStamped fullDataStamped isNodeOccupied).
Local Abbreviation recorded_state := (Merger.recorded_state binaryMsgToMap fullMsgToMap).
Local Abbreviation below_threshold := (Merger.below_threshold probability binaryMsgToMap fullMsgToMap).
Local Abbreviation merge := (Merger.merge probability binaryMsgToMap fullMsgToMap
  binaryData fullData binaryDataStamped fullDataStamped no_data isNodeOccupied).
Local Abbreviation tick := (Merger.tick probability binaryMsgToMap fullMsgToMap
  binaryData fullData binaryDataStamped fullDataStamped no_data isNodeOccupied).
Local Abbreviation run := (Merger.run probability binaryMsgToMap fullMsgToMap
  binaryData fullData binaryDataStamped fullDataStamped no_data isNodeOccupied).
Implicit Types (s : St) (o : outcome (LogOdds := LogOdds) (Data := Data))
  (m : Octomap (Data := Data)) (nid : string) (v : list Z).

(** *** Sequencing *)

Lemma state_of_and_then (P : St → Prop) o (k : St → outcome) :
  P (state_of o) → (∀ s, P s → P (state_of (k s))) → P (state_of (o >>> k)).
Proof. destruct o; simpl; auto. Qed.

Lemma returned_Done o : returned o = true → o = Done (state_of o).
Proof. by destruct o. Qed.


Lemma for_range_S n (body : nat → St → outcome) s :
  for_range (Z.of_nat (S n)) body s = for_range (Z.of_nat n) body s >>> body n.
Proof.
  unfold for_range. rewrite !Nat2Z.id, seq_S, foldl_snoc. done.
Qed.

Lemma for_range_nonpos n (body : nat → St → outcome) s :
  n ≤ 0 → for_range n body s = Done s.
Proof.
  intros Hn. unfold for_range.
  replace (Z.to_nat n) with 0%nat by lia. done.
Qed.

Lemma for_range_of_nat n (body : nat → St → outcome) s :
  for_range n body s = for_range (Z.of_nat (Z.to_nat n)) body s.
Proof. unfold for_range. by rewrite Nat2Z.id. Qed.

(** A property every iteration keeps holds when the loop stops, however it
    stops. *)
Lemma for_range_state (P : St → Prop) n (body : nat → St → outcome) s :
  P s → (∀ i s, P s → P (state_of (body i s))) →
  P (state_of (for_range n body s)).
Proof.
  intros Hs Hbody. rewrite for_range_of_nat.
  induction (Z.to_nat n) as [|k IH]; [by rewrite for_range_nonpos|].
  rewrite for_range_S. apply state_of_and_then; [done|]. intros s'. apply Hbody.
Qed.

(** *** One diff of a neighbor *)

Lemma max_element_snoc v x : is_Some (max_element (v ++ [x])).
Proof. destruct v; simpl; eauto. Qed.

Lemma merge_neighbor_diff_seen nid m s :
  count (ledger s nid) (to_uint32 (hseq (header m))) ≠ 0%nat →
  merge_neighbor_diff nid m s = Done s.
Proof.
  intros Hc. unfold Merger.merge_neighbor_diff. fold (ledger s nid).
  destruct (Nat.eqb_spec (count (ledger s nid) (to_uint32 (hseq (header m)))) 0);
    [done|]. done.
Qed.

Lemma merge_neighbor_diff_unseen nid m s :
  count (ledger s nid) (to_uint32 (hseq (header m))) = 0%nat →
  merge_neighbor_diff nid m s
  = match merge_maps (tree_merged s) (decode (octo_type s) m) false
            (overwrite_node_of (ledger s nid) (to_uint32 (hseq (header m)))) with
    | None => Crash (recorded_state nid m s)
    | Some (merged, temp) =>
        Done (set_tree_temp (Some temp)
                (set_tree_merged merged (recorded_state nid m s)))
    end.
Proof.
  intros Hc. unfold Merger.merge_neighbor_diff. fold (ledger s nid).
  rewrite Hc. simpl. rewrite lookup_total_insert_eq.
  unfold overwrite_node_of.
  destruct (max_element_snoc (ledger s nid)
              (to_int (to_uint32 (hseq (header m))))) as [latest ->].
  done.
Qed.


Lemma merge_neighbor_diff_cases nid m s :
  merge_neighbor_diff nid m s = Done s
  ∨ merge_neighbor_diff nid m s = Crash (recorded_state nid m s)
  ∨ ∃ merged temp,
      merge_neighbor_diff nid m s
      = Done (set_tree_temp (Some temp)
                (set_tree_merged merged (recorded_state nid m s))).
Proof.
  destruct (decide (count (ledger s nid) (to_uint32 (hseq (header m))) = 0%nat))
    as [Hc|Hc].
  - rewrite merge_neighbor_diff_unseen by done.
    destruct (merge_maps _ _ _ _) as [[merged temp]|]; eauto.
  - left. by apply merge_neighbor_diff_seen.
Qed.

(** *** What the neighbor loops leave alone *)

Lemma diff_state_merge_neighbor_diff nid m s :
  diff_state (state_of (merge_neighbor_diff nid m s)) = diff_state s.
Proof.
  destruct (merge_neighbor_diff_cases nid m s)
    as [->|[->|(merged & temp & ->)]]; done.
Qed.

Lemma diff_state_merge_neighbor i s :
  diff_state (state_of (merge_neighbor i s)) = diff_state s.
Proof.
  unfold Merger.merge_neighbor.
  destruct (neighbors_ (neighbors s) !! i) as [nb|]; [|done].
  apply (for_range_state (λ s', diff_state s' = diff_state s)); [done|].
  intros j s' Hs'. destruct (octomaps nb !! j) as [m|]; [|done].
  by rewrite diff_state_merge_neighbor_diff.
Qed.

Lemma diff_state_merge_neighbors s :
  diff_state (state_of (merge_neighbors s)) = diff_state s.
Proof.
  unfold Merger.merge_neighbors.
  apply (for_range_state (λ s', diff_state s' = diff_state s)); [done|].
  intros i s' Hs'. by rewrite diff_state_merge_neighbor.
Qed.

Lemma diff_state_publish_merged now s :
  diff_state (state_of (publish_merged now s)) = diff_state s.
Proof.
  unfold Merger.publish_merged, diff_state, publish. simpl.
  case_bool_decide; simpl; rewrite ?filter_app; simpl;
    by rewrite ?filter_cons_False, ?filter_nil, ?app_nil_r by done.
Qed.


(** *** The own map *)

Lemma merge_own_null_robot now s :
  decode (octo_type s) (myMap s) = None → type s = "robot" →
  merge now s = Done (set_tree_sys None s).
Proof.
  intros Hd Ht. unfold Merger.merge. rewrite Hd. simpl.
  by rewrite bool_decide_true.
Qed.

Lemma merge_own_null_other now s :
  decode (octo_type s) (myMap s) = None → type s ≠ "robot" →
  merge now s = Crash (set_tree_sys None s).
Proof.
  intros Hd Ht. unfold Merger.merge. rewrite Hd. simpl.
  rewrite bool_decide_false; [done|]. by intros [_ ?].
Qed.

Lemma num_nodes_of_build_diff_tree baseline own diff :
  snd <$> build_diff_tree probability baseline own diff
  = num_nodes_of probability baseline own.
Proof.
  unfold num_nodes_of. destruct own as [cur|]; [|done].
  rewrite !build_diff_tree_Some. cbv zeta. simpl.
  by rewrite !foldl_build_diff_tree_body_count.
Qed.

Lemma merge_own_decoded now s sys :
  decode (octo_type s) (myMap s) = Some sys →
  ∃ diff n,
    build_diff_tree probability (tree_old s) (Some sys) (tree_diff s)
      = Some (expand sys, diff, n)
    ∧ merge now s
      = (if bool_decide (map_thresh s < n)
         then publish_diff now
                (set_msg (new_Octomap no_data)
                   (set_tree_diff diff (set_tree_sys (Some (expand sys)) s)))
         else Done (set_msg (new_Octomap no_data)
                      (set_tree_diff diff (set_tree_sys (Some (expand sys)) s))))
        >>> (λ s, Done (set_tree_diff (clear (tree_diff s)) s))
        >>> merge_neighbors
        >>> publish_merged now.
Proof.
  intros Hd. unfold Merger.merge. rewrite Hd.
  cbn -[build_diff_tree Merger.merge_neighbors Merger.publish_merged
        Merger.publish_diff].
  rewrite build_diff_tree_Some. cbv zeta.
  eexists _, _. split; [done|]. done.
Qed.

(** A cycle whose count does not exceed the threshold, or whose own map
    does not decode, leaves the baseline, the outbound diffs and their count
    as they were and publishes nothing about diffs. *)
Lemma diff_state_merge now s :
  (∀ n, num_nodes_of probability (tree_old s) (decode (octo_type s) (myMap s))
          = Some n → n ≤ map_thresh s) →
  diff_state (state_of (merge now s)) = diff_state s.
Proof.
  intros Hn. destruct (decode (octo_type s) (myMap s)) as [sys|] eqn:Hd.
  - destruct (merge_own_decoded now s sys Hd) as (diff & n & Hb & ->).
    rewrite <- num_nodes_of_build_diff_tree with (diff := tree_diff s) in Hn.
    rewrite Hb in Hn. simpl in Hn. specialize (Hn n eq_refl).
    rewrite bool_decide_false by lia.
    apply (state_of_and_then (λ s', diff_state s' = diff_state s)).
    + apply (state_of_and_then (λ s', diff_state s' = diff_state s)).
      * done.
      * intros s' Hs'. by rewrite diff_state_merge_neighbors.
    + intros s' Hs'. by rewrite diff_state_publish_merged.
  - destruct (decide (type s = "robot")).
    + by rewrite merge_own_null_robot.
    + by rewrite merge_own_null_other.
Qed.


(** *** What a cycle never writes: the parameters and the inputs *)

Lemma inputs_merge_neighbor_diff nid m s :
  inputs (state_of (merge_neighbor_diff nid m s)) = inputs s.
Proof.
  destruct (merge_neighbor_diff_cases nid m s)
    as [->|[->|(merged & temp & ->)]]; done.
Qed.

Lemma inputs_merge_neighbor i s :
  inputs (state_of (merge_neighbor i s)) = inputs s.
Proof.
  unfold Merger.merge_neighbor.
  destruct (neighbors_ (neighbors s) !! i) as [nb|]; [|done].
  apply (for_range_state (λ s', inputs s' = inputs s)); [done|].
  intros j s' Hs'. destruct (octomaps nb !! j) as [m|]; [|done].
  by rewrite inputs_merge_neighbor_diff.
Qed.

Lemma inputs_merge_neighbors s :
  inputs (state_of (merge_neighbors s)) = inputs s.
Proof.
  unfold Merger.merge_neighbors.
  apply (for_range_state (λ s', inputs s' = inputs s)); [done|].
  intros i s' Hs'. by rewrite inputs_merge_neighbor.
Qed.

Lemma inputs_publish_merged now s :
  inputs (state_of (publish_merged now s)) = inputs s.
Proof. unfold Merger.publish_merged. by case_bool_decide. Qed.

Lemma inputs_publish_diff now s :
  inputs (state_of (publish_diff now s)) = inputs s.
Proof.
  unfold Merger.publish_diff. destruct (tree_sys s) as [sys|]; [|done].
  by destruct (merge_maps _ _ _ _) as [[merged diff]|].
Qed.

Lemma inputs_merge now s : inputs (state_of (merge now s)) = inputs s.
Proof.
  destruct (decode (octo_type s) (myMap s)) as [sys|] eqn:Hd.
  - destruct (merge_own_decoded now s sys Hd) as (diff & n & _ & ->).
    apply (state_of_and_then (λ s', inputs s' = inputs s)).
    + apply (state_of_and_then (λ s', inputs s' = inputs s)).
      * apply (state_of_and_then (λ s', inputs s' = inputs s)); [|done].
        case_bool_decide; [|done]. by rewrite inputs_publish_diff.
      * intros s' Hs'. by rewrite inputs_merge_neighbors.
    + intros s' Hs'. by rewrite inputs_publish_merged.
  - destruct (decide (type s = "robot")).
    + by rewrite merge_own_null_robot.
    + by rewrite merge_own_null_other.
Qed.

(** *** The scheduling loop *)

Lemma spinOnce_snoc arrivals a s :
  spinOnce (arrivals ++ [a]) s
  = match a with
    | arrive_myMap m => callback_myMap m (spinOnce arrivals s)
    | arrive_neighborMaps m => callback_neighborMaps m (spinOnce arrivals s)
    end.
Proof. unfold spinOnce. by rewrite foldl_snoc. Qed.

Lemma spinOnce_keeps arrivals s :
  let s' := spinOnce arrivals s in
  diff_state s' = diff_state s
  ∧ (type s', octo_type s', map_thresh s') = (type s, octo_type s, map_thresh s)
  ∧ seqs s' = seqs s
  ∧ (myMap s' = myMap s ∨ arrive_myMap (myMap s') ∈ arrivals).
Proof.
  induction arrivals as [|a arrivals IH] using rev_ind; [by auto|].
  cbv zeta in *. rewrite spinOnce_snoc.
  destruct IH as (IH1 & IH2 & IH3 & IH4).
  destruct a as [m|m]; simpl; (split; [done|]); (split; [done|]);
    (split; [done|]).
  - right. rewrite elem_of_app, list_elem_of_singleton. by right.
  - destruct IH4 as [IH4|IH4]; [by left|].
    right. rewrite elem_of_app. by left.
Qed.

Lemma run_snoc ticks t s : run (ticks ++ [t]) s = run ticks s >>> tick t.1 t.2.
Proof. unfold Merger.run. by rewrite foldl_snoc. Qed.

Lemma elem_of_own_maps s ticks m :
  m ∈ own_maps s ticks
  ↔ m = myMap s ∨ ∃ t, t ∈ ticks ∧ arrive_myMap m ∈ t.1.
Proof.
  unfold own_maps. rewrite elem_of_cons, list_elem_of_bind.
  split; (intros [?|H]; [by left|right]).
  - destruct H as (t & Hin & Ht). exists t. split; [done|].
    apply list_elem_of_bind in Hin as (a & Hin & Ha).
    destruct a; [|by apply elem_of_nil in Hin].
    apply list_elem_of_singleton in Hin. by subst.
  - destruct H as (t & Ht & Hin). exists t. split; [|done].
    apply list_elem_of_bind. exists (arrive_myMap m). split; [|done].
    by apply list_elem_of_singleton.
Qed.

Lemma diff_state_run ticks s :
  below_threshold (tree_old s) (octo_type s) (map_thresh s) (own_maps s ticks) →
  let s' := state_of (run ticks s) in
  diff_state s' = diff_state s
  ∧ (type s', octo_type s', map_thresh s') = (type s, octo_type s, map_thresh s)
  ∧ myMap s' ∈ own_maps s ticks.
Proof.
  induction ticks as [|[arrivals now] ticks IH] using rev_ind; intros Hb.
  - simpl. split; [done|]. split; [done|]. apply list_elem_of_here.
  - cbv zeta in *. rewrite run_snoc.
    assert (Hsub : ∀ m, m ∈ own_maps s ticks → m ∈ own_maps s (ticks ++ [(arrivals, now)])).
    { intros m. rewrite !elem_of_own_maps. intros [?|(t & Ht & Hin)]; [by left|].
      right. exists t. rewrite elem_of_app. eauto. }
    destruct IH as (IH1 & IH2 & IH3).
    { intros m n Hm. apply Hb. by apply Hsub. }
    destruct (run ticks s) as [s1|s1]; simpl in *;
      [|split; [done|]; split; [done|]; by apply Hsub].
    unfold Merger.tick.
    destruct (spinOnce_keeps arrivals s1) as (Hs1 & Hs2 & _ & Hs4).
    set (s2 := spinOnce arrivals s1) in *.
    assert (Hown : myMap s2 ∈ own_maps s (ticks ++ [(arrivals, now)])).
    { destruct Hs4 as [->|Hs4]; [by apply Hsub|].
      apply elem_of_own_maps. right. exists (arrivals, now).
      rewrite elem_of_app, list_elem_of_singleton. eauto. }
    injection Hs2 as Hs2a Hs2b Hs2c. injection IH2 as IH2a IH2b IH2c.
    destruct (myMapNew s2 || otherMapsNew s2); simpl.
    + set (s3 := set_otherMapsNew false (set_myMapNew false s2)).
      pose proof (inputs_merge now s3) as Hin. unfold inputs in Hin.
      injection Hin as Hi1 Hi2 Hi3 Hi4 _.
      split; [|split; [congruence|by rewrite Hi4]].
      rewrite diff_state_merge; [by rewrite <- IH1, <- Hs1|].
      intros n Hn. simpl in Hn.
      change (map_thresh s3) with (map_thresh s2). rewrite Hs2c, IH2c.
      apply (Hb (myMap s2) n Hown).
      assert (Hold : tree_old s2 = tree_old s).
      { pose proof (f_equal (λ x, x.1.1.1) Hs1) as H1.
        pose proof (f_equal (λ x, x.1.1.1) IH1) as H2. simpl in *. congruence. }
      change (tree_old s3) with (tree_old s2) in Hn.
      change (octo_type s3) with (octo_type s2) in Hn.
      change (myMap s3) with (myMap s2) in Hn.
      rewrite Hold, Hs2b, IH2b in Hn. exact Hn.
    + split; [congruence|]. split; [congruence|done].
Qed.


(** *** The sequence ledger *)

Lemma to_uint32_range z : 0 ≤ to_uint32 z < 2 ^ 32.
Proof. unfold to_uint32. apply Z.mod_pos_bound. lia. Qed.

Lemma to_uint32_to_int z : to_uint32 (to_int z) = to_uint32 z.
Proof.
  unfold to_uint32, to_int.
  rewrite Zminus_mod_idemp_l. f_equal. lia.
Qed.

Lemma to_uint32_id z : 0 ≤ z < 2 ^ 32 → to_uint32 z = z.
Proof. intros Hz. unfold to_uint32. by apply Z.mod_small. Qed.

Lemma to_int_id z : 0 ≤ z < 2 ^ 31 → to_int z = z.
Proof. intros Hz. unfold to_int. rewrite Z.mod_small; lia. Qed.

Lemma count_app v1 v2 c : count (v1 ++ v2) c = (count v1 c + count v2 c)%nat.
Proof. unfold count. by rewrite filter_app, length_app. Qed.

Lemma count_recorded v c :
  0 ≤ c < 2 ^ 32 → count (v ++ [to_int c]) c ≠ 0%nat.
Proof.
  intros Hc. rewrite count_app. unfold count at 2.
  rewrite filter_cons_True; [simpl; lia|].
  by rewrite to_uint32_to_int, to_uint32_id.
Qed.

(** An unseen sequence number is in the ledger when [merge_neighbor_diff]
    stops, whether it returns or stops at the NULL of a failed decode. *)
Lemma ledger_merge_neighbor_diff_unseen nid m s :
  count (ledger s nid) (to_uint32 (hseq (header m))) = 0%nat →
  ledger (state_of (merge_neighbor_diff nid m s)) nid
  = ledger s nid ++ [to_int (to_uint32 (hseq (header m)))].
Proof.
  intros Hc. rewrite merge_neighbor_diff_unseen by done.
  destruct (merge_maps _ _ _ _) as [[merged temp]|]; simpl;
    unfold ledger, recorded_state; simpl; by rewrite lookup_total_insert_eq.
Qed.

Lemma ledger_merge_neighbor_diff_mono nid m s nid' c :
  count (ledger s nid') c ≠ 0%nat →
  count (ledger (state_of (merge_neighbor_diff nid m s)) nid') c ≠ 0%nat.
Proof.
  intros Hc.
  assert (Hrec : count (ledger (recorded_state nid m s) nid') c ≠ 0%nat).
  { unfold ledger, recorded_state. simpl.
    destruct (decide (c_str nid = c_str nid')) as [Heq|Hne].
    - rewrite <- Heq, lookup_total_insert_eq, count_app.
      unfold ledger in *. rewrite <- Heq in Hc. lia.
    - by rewrite lookup_total_insert_ne. }
  destruct (merge_neighbor_diff_cases nid m s)
    as [->|[->|(merged & temp & ->)]]; done.
Qed.

Lemma ledger_merge_neighbor_diff_recorded nid m s :
  count (ledger (state_of (merge_neighbor_diff nid m s)) nid)
        (to_uint32 (hseq (header m))) ≠ 0%nat.
Proof.
  destruct (decide (count (ledger s nid) (to_uint32 (hseq (header m))) = 0%nat))
    as [Hc|Hc].
  - rewrite ledger_merge_neighbor_diff_unseen by done.
    apply count_recorded, to_uint32_range.
  - by rewrite merge_neighbor_diff_seen.
Qed.

Lemma for_range_Done_inv n (body : nat → St → outcome) s s' :
  for_range (Z.of_nat (S n)) body s = Done s' →
  ∃ s1, for_range (Z.of_nat n) body s = Done s1 ∧ body n s1 = Done s'.
Proof.
  rewrite for_range_S. destruct (for_range _ _ _) as [s1|s1]; [|done].
  simpl. eauto.
Qed.

(** When the loop over a batch returns, every diff of the batch has its
    sequence number in the ledger. *)
Lemma ledger_batch_recorded (nb : OctomapArray (Data := Data)) n s s' :
  for_range (Z.of_nat n)
    (λ j s, match octomaps nb !! j with
            | None => Crash s
            | Some m => merge_neighbor_diff (owner nb) m s
            end) s = Done s' →
  ∀ j m, (j < n)%nat → octomaps nb !! j = Some m →
    count (ledger s' (owner nb)) (to_uint32 (hseq (header m))) ≠ 0%nat.
Proof.
  revert s'. induction n as [|n IH]; intros s' Hdone j m Hj Hm; [lia|].
  apply for_range_Done_inv in Hdone as (s1 & Hn & Hbody).
  destruct (octomaps nb !! n) as [mn|] eqn:Hmn; [|done].
  pose proof (f_equal state_of Hbody) as Hs'. simpl in Hs'. subst s'.
  destruct (decide (j = n)) as [->|Hne].
  - rewrite Hm in Hmn. injection Hmn as <-.
    apply ledger_merge_neighbor_diff_recorded.
  - apply ledger_merge_neighbor_diff_mono. apply (IH s1 Hn j m); [lia|done].
Qed.

Lemma ledger_merge_neighbors_mono s nid c :
  count (ledger s nid) c ≠ 0%nat →
  count (ledger (state_of (merge_neighbors s)) nid) c ≠ 0%nat.
Proof.
  intros Hc. unfold Merger.merge_neighbors.
  apply (for_range_state (λ s', count (ledger s' nid) c ≠ 0%nat)); [done|].
  intros i s1 Hs1. unfold Merger.merge_neighbor.
  destruct (neighbors_ (neighbors s1) !! i) as [nb|]; [|done].
  apply (for_range_state (λ s', count (ledger s' nid) c ≠ 0%nat)); [done|].
  intros j s2 Hs2. destruct (octomaps nb !! j) as [m|]; [|done].
  by apply ledger_merge_neighbor_diff_mono.
Qed.

Lemma seqs_publish_diff now s :
  seqs (state_of (publish_diff now s)) = seqs s.
Proof.
  unfold Merger.publish_diff. destruct (tree_sys s) as [sys|]; [|done].
  by destruct (merge_maps _ _ _ _) as [[merged diff]|].
Qed.

Lemma seqs_publish_merged now s :
  seqs (state_of (publish_merged now s)) = seqs s.
Proof. unfold Merger.publish_merged. by case_bool_decide. Qed.

Lemma ledger_merge_mono now s nid c :
  count (ledger s nid) c ≠ 0%nat →
  count (ledger (state_of (merge now s)) nid) c ≠ 0%nat.
Proof.
  intros Hc. destruct (decode (octo_type s) (myMap s)) as [sys|] eqn:Hd.
  - destruct (merge_own_decoded now s sys Hd) as (diff & n & _ & ->).
    apply (state_of_and_then (λ s', count (ledger s' nid) c ≠ 0%nat)).
    + apply (state_of_and_then (λ s', count (ledger s' nid) c ≠ 0%nat)).
      * apply (state_of_and_then (λ s', count (ledger s' nid) c ≠ 0%nat)); [|done].
        case_bool_decide; [|done]. unfold ledger. by rewrite seqs_publish_diff.
      * intros s' Hs'. by apply ledger_merge_neighbors_mono.
    + intros s' Hs'. unfold ledger. by rewrite seqs_publish_merged.
  - destruct (decide (type s = "robot")).
    + by rewrite merge_own_null_robot.
    + by rewrite merge_own_null_other.
Qed.

Lemma ledger_run_mono ticks s nid c :
  count (ledger s nid) c ≠ 0%nat →
  count (ledger (state_of (run ticks s)) nid) c ≠ 0%nat.
Proof.
  intros Hc. induction ticks as [|[arrivals now] ticks IH] using rev_ind; [done|].
  rewrite run_snoc.
  apply (state_of_and_then (λ s', count (ledger s' nid) c ≠ 0%nat)); [done|].
  intros s1 Hs1. unfold Merger.tick. simpl.
  destruct (spinOnce_keeps arrivals s1) as (_ & _ & Hseqs & _).
  assert (Hs2 : count (ledger (spinOnce arrivals s1) nid) c ≠ 0%nat).
  { unfold ledger. by rewrite Hseqs. }
  destruct (_ || _); [|done].
  by apply ledger_merge_mono.
Qed.

(** *** The loop over a batch *)

Lemma count_snoc v x c :
  count (v ++ [to_int x]) c ≠ 0%nat ↔ count v c ≠ 0%nat ∨ to_uint32 x = c.
Proof.
  rewrite count_app. unfold count at 2.
  destruct (decide (to_uint32 x = c)) as [He|He].
  - rewrite filter_cons_True by (by rewrite to_uint32_to_int).
    simpl. split; [by right|lia].
  - rewrite filter_cons_False by (by rewrite to_uint32_to_int).
    simpl. split; [intros ?; left; lia|intros [?|?]; [lia|done]].
Qed.

(** What a call for one diff records: the diff's own sequence number and
    nothing else, whether it returns or stops. *)
Lemma ledger_merge_neighbor_diff_iff nid m s c :
  count (ledger (state_of (merge_neighbor_diff nid m s)) nid) c ≠ 0%nat
  ↔ count (ledger s nid) c ≠ 0%nat ∨ to_uint32 (hseq (header m)) = c.
Proof.
  destruct (decide (count (ledger s nid) (to_uint32 (hseq (header m))) = 0%nat))
    as [Hc|Hc].
  - rewrite ledger_merge_neighbor_diff_unseen, count_snoc by done.
    by rewrite (to_uint32_id (to_uint32 _)) by apply to_uint32_range.
  - rewrite merge_neighbor_diff_seen by done. simpl.
    split; [by left|]. intros [?|<-]; done.
Qed.

(** A call for one diff stops only at a diff that does not decode. *)
Lemma merge_neighbor_diff_Crash nid m s s' :
  merge_neighbor_diff nid m s = Crash s' → decode (octo_type s) m = None.
Proof.
  destruct (decide (count (ledger s nid) (to_uint32 (hseq (header m))) = 0%nat))
    as [Hc|Hc]; [|by rewrite merge_neighbor_diff_seen].
  rewrite merge_neighbor_diff_unseen by done.
  destruct (decode (octo_type s) m) as [src|]; [|done].
  by rewrite merge_maps_Some.
Qed.

(** A loop that returns has kept [Q] through all its iterations; a loop
    that stops has kept it up to the iteration [j] it stopped in, which
    left [R j]. *)
Lemma for_range_inv (Q R : nat → St → Prop) n (body : nat → St → outcome) s :
  Q 0%nat s →
  (∀ j s1, (j < n)%nat → Q j s1 →
     match body j s1 with
     | Done s2 => Q (S j) s2
     | Crash s2 => R j s2
     end) →
  match for_range (Z.of_nat n) body s with
  | Done s' => Q n s'
  | Crash s' => ∃ j, (j < n)%nat ∧ R j s'
  end.
Proof.
  intros Hs. induction n as [|n IH]; intros Hbody.
  - by rewrite for_range_nonpos.
  - rewrite for_range_S.
    assert (IH' := IH (λ j s1 Hj, Hbody j s1 (Nat.lt_lt_succ_r _ _ Hj))).
    destruct (for_range (Z.of_nat n) body s) as [s1|s1]; simpl.
    + specialize (Hbody n s1 (Nat.lt_succ_diag_r n) IH').
      destruct (body n s1) as [s2|s2]; [done|].
      exists n. split; [lia|done].
    + destruct IH' as (j & Hj & HR). exists j. split; [lia|done].
Qed.

(** The loop over a batch whose count fits its array: the sequence numbers
    of a prefix of the batch are recorded and no other is added; the prefix
    is the whole batch when the loop returns, and ends with a diff that
    does not decode when it stops. *)
Lemma merge_neighbor_batch i (nb : OctomapArray (Data := Data)) s :
  neighbors_ (neighbors s) !! i = Some nb →
  num_octomaps nb ≤ Z.of_nat (length (octomaps nb)) →
  let s' := state_of (merge_neighbor i s) in
  ∃ p, (p ≤ Z.to_nat (num_octomaps nb))%nat
     ∧ (∀ c, count (ledger s' (owner nb)) c ≠ 0%nat ↔
             count (ledger s (owner nb)) c ≠ 0%nat
             ∨ ∃ j m, (j < p)%nat ∧ octomaps nb !! j = Some m
                    ∧ to_uint32 (hseq (header m)) = c)
     ∧ (merge_neighbor i s = Done s'
        ∧ p = Z.to_nat (num_octomaps nb)
        ∨ merge_neighbor i s = Crash s'
          ∧ ∃ j m, p = S j ∧ octomaps nb !! j = Some m
                 ∧ decode (octo_type s) m = None).
Proof.
  intros Hnb Hlen. cbv zeta. unfold Merger.merge_neighbor. rewrite Hnb.
  rewrite for_range_of_nat.
  set (n := Z.to_nat (num_octomaps nb)).
  assert (Hn : (n ≤ length (octomaps nb))%nat) by lia.
  set (recorded := λ (p : nat) (s1 : St),
         ∀ c, count (ledger s1 (owner nb)) c ≠ 0%nat ↔
              count (ledger s (owner nb)) c ≠ 0%nat
              ∨ ∃ j m, (j < p)%nat ∧ octomaps nb !! j = Some m
                     ∧ to_uint32 (hseq (header m)) = c).
  set (body := λ (j : nat) (s1 : St),
         match octomaps nb !! j with
         | Some m => merge_neighbor_diff (owner nb) m s1
         | None => Crash s1
         end).
  assert (Hinv : match for_range (Z.of_nat n) body s with
                 | Done s' => octo_type s' = octo_type s ∧ recorded n s'
                 | Crash s' =>
                     ∃ j, (j < n)%nat
                        ∧ recorded (S j) s'
                        ∧ ∃ m, octomaps nb !! j = Some m
                             ∧ decode (octo_type s) m = None
                 end).
  { apply (for_range_inv
             (λ j s1, octo_type s1 = octo_type s ∧ recorded j s1)
             (λ j s1, recorded (S j) s1
                      ∧ ∃ m, octomaps nb !! j = Some m
                           ∧ decode (octo_type s) m = None)).
    - split; [done|]. intros c. split; [by left|].
      intros [?|(j & m & Hj & _)]; [done|lia].
    - intros j s1 Hj [Ho Hrec]. unfold body.
      destruct (lookup_lt_is_Some_2 (octomaps nb) j) as [m Hm]; [lia|].
      rewrite Hm.
      assert (Hrec' : recorded (S j)
                        (state_of (merge_neighbor_diff (owner nb) m s1))).
      { intros c. rewrite ledger_merge_neighbor_diff_iff.
        destruct (Hrec c) as [Hto Hfrom]. split.
        - intros [[?|(j' & m' & Hj' & Hm' & Hc)]%Hto|Hc].
          + by left.
          + right. exists j', m'. split; [lia|done].
          + right. exists j, m. split; [lia|done].
        - intros [?|(j' & m' & Hj' & Hm' & Hc)]; [left; apply Hfrom; by left|].
          destruct (decide (j' = j)) as [->|Hne].
          + right. rewrite Hm in Hm'. by injection Hm' as <-.
          + left. apply Hfrom. right. exists j', m'. split; [lia|done]. }
      pose proof (inputs_merge_neighbor_diff (owner nb) m s1) as Hi.
      destruct (merge_neighbor_diff (owner nb) m s1) as [s2|s2] eqn:Hbody;
        simpl in Hrec', Hi.
      + split; [|done]. rewrite <- Ho. unfold inputs in Hi. by injection Hi.
      + split; [done|]. exists m. split; [done|]. rewrite <- Ho.
        by apply (merge_neighbor_diff_Crash (owner nb) m s1 s2). }
  destruct (for_range (Z.of_nat n) body s) as [s'|s'] eqn:Hfor; simpl.
  - destruct Hinv as [_ Hrec]. exists n. split; [done|].
    split; [exact Hrec|]. by left.
  - destruct Hinv as (j & Hj & Hrec & m & Hm & Hd). exists (S j).
    split; [lia|]. split; [exact Hrec|]. right. split; [done|].
    by exists j, m.
Qed.

(** *** The merge policy of a neighbor diff *)

Lemma foldl_max_le x v c :
  foldl Z.max x v ≤ c ↔ x ≤ c ∧ Forall (λ e, e ≤ c) v.
Proof.
  revert x. induction v as [|y v IH]; intros x; simpl.
  - split; [intros ?; split; [done|constructor]|by intros [? _]].
  - rewrite IH, Forall_cons, Z.max_lub_iff. tauto.
Qed.

Lemma foldl_max_bounds x v lo hi :
  lo ≤ x < hi → Forall (λ e, lo ≤ e < hi) v → lo ≤ foldl Z.max x v < hi.
Proof.
  revert x. induction v as [|y v IH]; intros x Hx Hv; simpl; [done|].
  apply Forall_cons in Hv as [Hy Hv]. apply IH; [lia|done].
Qed.

Lemma max_element_le v M c :
  max_element v = Some M → M ≤ c ↔ Forall (λ e, e ≤ c) v.
Proof.
  destruct v as [|x v]; [done|]. intros [= <-].
  rewrite foldl_max_le, Forall_cons. done.
Qed.

Lemma max_element_bounds v M lo hi :
  max_element v = Some M → Forall (λ e, lo ≤ e < hi) v → lo ≤ M < hi.
Proof.
  destruct v as [|x v]; [done|]. intros [= <-] [Hx Hv]%Forall_cons.
  by apply foldl_max_bounds.
Qed.

(** For sequence numbers that fit an [int], [overwrite_node] says that the
    sequence number is at least every one recorded before it. *)
Lemma overwrite_node_of_in_range v c :
  Forall (λ e, 0 ≤ e < 2 ^ 31) v → 0 ≤ c < 2 ^ 31 →
  overwrite_node_of v c = true ↔ Forall (λ e, e ≤ c) v.
Proof.
  intros Hv Hc. unfold overwrite_node_of.
  destruct (max_element_snoc v (to_int c)) as [M HM]. rewrite HM.
  rewrite to_int_id in HM by done.
  assert (Hall : Forall (λ e, 0 ≤ e < 2 ^ 31) (v ++ [c])).
  { apply Forall_app. split; [done|]. by constructor. }
  pose proof (max_element_bounds _ _ _ _ HM Hall) as HMr.
  rewrite bool_decide_eq_true, to_uint32_id by lia.
  rewrite (max_element_le _ _ c HM), Forall_app, Forall_singleton. 
  split; [by intros [? _]|]. intros ?. split; [done|lia].
Qed.

(** *** The claims about the cycle *)

(** C6 (the code departs from it for a base station).  When the own map
    does not decode, a cycle of an agent of type "base" stops at the NULL
    dereference in [build_diff_tree], before anything is merged or
    published. *)
Theorem merge_base_null_own_map now s :
  decode (octo_type s) (myMap s) = None → type s = "base" →
  merge now s = Crash (set_tree_sys None s).
Proof.
  intros Hd Ht. apply merge_own_null_other; [done|]. by rewrite Ht.
Qed.

(** C5 (the code departs from it).  A diff with an unseen sequence number
    that does not decode stops the cycle at the NULL dereference in
    [merge_maps], its sequence number already recorded. *)
Theorem merge_neighbor_diff_null nid m s :
  count (ledger s nid) (to_uint32 (hseq (header m))) = 0%nat →
  decode (octo_type s) m = None →
  merge_neighbor_diff nid m s = Crash (recorded_state nid m s).
Proof.
  intros Hc Hd. rewrite merge_neighbor_diff_unseen by done. by rewrite Hd.
Qed.

(** C4 (the code departs from it from 2^31 on).  With 2147483648 recorded
    for a neighbor, its diff with sequence number 5 is merged with
    [overwrite = true]. *)
Theorem merge_neighbor_diff_after_large_seq nid m s :
  ledger s nid = [to_int 2147483648] →
  to_uint32 (hseq (header m)) = 5 →
  merge_neighbor_diff nid m s
  = match merge_maps (tree_merged s) (decode (octo_type s) m) false true with
    | None => Crash (recorded_state nid m s)
    | Some (merged, temp) =>
        Done (set_tree_temp (Some temp)
                (set_tree_merged merged (recorded_state nid m s)))
    end.
Proof.
  intros Hl Hseq. rewrite merge_neighbor_diff_unseen; rewrite Hl, Hseq; done.
Qed.

(** C7.  When every own-map message of a run, diffed against the baseline
    the run starts with, gives a count that is not above the threshold, the
    run, and a cycle started in its first state, leave the baseline, the
    outbound diffs and their count as they were and publish no diff and no
    diff count. *)
Theorem no_diff_below_threshold ticks now s :
  below_threshold (tree_old s) (octo_type s) (map_thresh s) (own_maps s ticks) →
  diff_state (state_of (run ticks s)) = diff_state s
  ∧ diff_state (state_of (merge now s)) = diff_state s.
Proof.
  intros Hb. split.
  - by apply diff_state_run.
  - apply diff_state_merge. intros n Hn. apply (Hb (myMap s) n); [|done].
    apply list_elem_of_here.
Qed.

(** C10 (the code departs from it when a diff does not decode).  An
    unseen sequence number is appended to the neighbor's ledger entry
    before the decode: it is there whether [merge_neighbor_diff] then
    returns or stops at the NULL of a failed decode.  A recorded one makes
    the call return at once with the state untouched.  The loop over a
    batch whose count fits its array processes a prefix of it: it returns
    with the sequence numbers of the whole batch recorded, or it stops at a
    diff that was unseen and does not decode; then the sequence numbers of
    the diffs up to and including that one are recorded and no other is
    added, so the later diffs of the batch stay unrecorded.  A recorded
    sequence number stays recorded through every later tick. *)
Theorem ledger_records_before_decode :
  (∀ nid m s,
     count (ledger s nid) (to_uint32 (hseq (header m))) = 0%nat →
     ledger (state_of (merge_neighbor_diff nid m s)) nid
     = ledger s nid ++ [to_int (to_uint32 (hseq (header m)))]
     ∧ (decode (octo_type s) m = None →
        merge_neighbor_diff nid m s = Crash (recorded_state nid m s)))
  ∧ (∀ nid m s,
       count (ledger s nid) (to_uint32 (hseq (header m))) ≠ 0%nat →
       merge_neighbor_diff nid m s = Done s)
  ∧ (∀ i nb s,
       neighbors_ (neighbors s) !! i = Some nb →
       num_octomaps nb ≤ Z.of_nat (length (octomaps nb)) →
       let s' := state_of (merge_neighbor i s) in
       ∃ p, (p ≤ Z.to_nat (num_octomaps nb))%nat
          ∧ (∀ c, count (ledger s' (owner nb)) c ≠ 0%nat ↔
                  count (ledger s (owner nb)) c ≠ 0%nat
                  ∨ ∃ j m, (j < p)%nat ∧ octomaps nb !! j = Some m
                         ∧ to_uint32 (hseq (header m)) = c)
          ∧ (merge_neighbor i s = Done s'
             ∧ p = Z.to_nat (num_octomaps nb)
             ∨ merge_neighbor i s = Crash s'
               ∧ ∃ j m, p = S j ∧ octomaps nb !! j = Some m
                      ∧ decode (octo_type s) m = None))
  ∧ (∀ ticks s nid c,
       count (ledger s nid) c ≠ 0%nat →
       count (ledger (state_of (run ticks s)) nid) c ≠ 0%nat).
Proof.
  split.
  { intros nid m s Hc. split; [by apply ledger_merge_neighbor_diff_unseen|].
    intros Hd. rewrite merge_neighbor_diff_unseen by done. by rewrite Hd. }
  split; [exact merge_neighbor_diff_seen|].
  split; [exact merge_neighbor_batch|exact ledger_run_mono].
Qed.


(** *** More about the cycle *)

Lemma and_then_Done_inv o (k : St → outcome) s' :
  o >>> k = Done s' → ∃ s1, o = Done s1 ∧ k s1 = Done s'.
Proof. destruct o as [s1|s1]; [|done]. simpl. eauto. Qed.

(** The state in which the branch [num_nodes > map_thresh] starts. *)
Lemma publish_diff_Done now s sys :
  tree_sys s = Some sys →
  ∃ merged diff m,
    merge_maps (tree_merged s) (Some (tree_diff s)) true false
      = Some (merged, diff)
    ∧ header m = {| hseq := to_uint32 (num_diffs s); stamp := now;
                    frame_id := "world" |}
    ∧ id m = "OcTree"
    ∧ publish_diff now s
      = Done
          (publish (pub_size (to_uint32 (num_diffs s + 1)))
             (publish
                (pub_mapdiffs
                   {| owner := owner (mapdiffs s);
                      num_octomaps := num_diffs s + 1;
                      octomaps := octomaps (mapdiffs s) ++ [m] |})
                (set_mapdiffs
                   {| owner := owner (mapdiffs s);
                      num_octomaps := num_diffs s + 1;
                      octomaps := octomaps (mapdiffs s) ++ [m] |}
                   (set_msg m
                      (set_num_diffs (num_diffs s + 1)
                         (set_tree_diff (prune diff)
                            (set_tree_merged merged
                               (set_tree_sys (Some (tree_old s))
                                  (set_tree_old sys s))))))))).
Proof.
  intros Hsys. unfold Merger.publish_diff. rewrite Hsys.
  cbn -[merge_maps prune]. rewrite merge_maps_Some.
  eexists _, _, _. split; [done|].
  split; [|split]; [| |reflexivity]; cbn -[prune].
  - f_equal. f_equal. lia.
  - done.
Qed.


(** What a cycle does to the baseline and the outbound diffs: nothing, or,
    when the own map decodes and the count exceeds the threshold, the
    baseline becomes the expanded own map, the count grows by one and one
    message with the next sequence number is appended and published. *)
Lemma diff_state_merge_cases now s :
  let s' := state_of (merge now s) in
  diff_state s' = diff_state s
  ∨ ∃ sys n m,
      decode (octo_type s) (myMap s) = Some sys
      ∧ num_nodes_of probability (tree_old s) (Some sys) = Some n
      ∧ map_thresh s < n
      ∧ header m = {| hseq := to_uint32 (num_diffs s); stamp := now;
                      frame_id := "world" |}
      ∧ diff_state s'
        = (expand sys,
           {| owner := owner (mapdiffs s); num_octomaps := num_diffs s + 1;
              octomaps := octomaps (mapdiffs s) ++ [m] |},
           num_diffs s + 1,
           filter (λ p, is_diff_publication p = true) (published s)
           ++ [pub_mapdiffs
                 {| owner := owner (mapdiffs s); num_octomaps := num_diffs s + 1;
                    octomaps := octomaps (mapdiffs s) ++ [m] |};
               pub_size (to_uint32 (num_diffs s + 1))]).
Proof.
  cbv zeta.
  destruct (decode (octo_type s) (myMap s)) as [sys|] eqn:Hd.
  - destruct (merge_own_decoded now s sys Hd) as (diff & n & Hb & ->).
    pose proof (num_nodes_of_build_diff_tree (tree_old s) (Some sys) (tree_diff s))
      as Hn. rewrite Hb in Hn. simpl in Hn.
    set (s2 := set_msg (new_Octomap no_data)
                 (set_tree_diff diff (set_tree_sys (Some (expand sys)) s))).
    assert (Htail : ∀ o : outcome,
      diff_state (state_of (o >>> (λ s, Done (set_tree_diff (clear (tree_diff s)) s))
                              >>> merge_neighbors >>> publish_merged now))
      = diff_state (state_of o)).
    { intros o.
      apply (state_of_and_then (λ s', diff_state s' = diff_state (state_of o))).
      - apply (state_of_and_then (λ s', diff_state s' = diff_state (state_of o))).
        + by destruct o.
        + intros s' Hs'. by rewrite diff_state_merge_neighbors.
      - intros s' Hs'. by rewrite diff_state_publish_merged. }
    rewrite Htail. case_bool_decide as Hlt; [|by left].
    right. destruct (publish_diff_Done now s2 (expand sys) eq_refl)
      as (merged & pruned & m & _ & Hm & _ & ->).
    exists sys, n, m. split; [done|]. split; [done|]. split; [done|].
    split; [exact Hm|].
    unfold diff_state, publish. cbn -[prune expand].
    rewrite !filter_app, !filter_cons_True by done.
    by rewrite filter_nil, <- app_assoc.
  - left. destruct (decide (type s = "robot")).
    + by rewrite merge_own_null_robot.
    + by rewrite merge_own_null_other.
Qed.


(** A property that the callbacks, the reset of the flags and a cycle keep
    holds in the state a run stops in. *)
Lemma run_state (P : St → Prop) ticks s :
  P s →
  (∀ arrivals s, P s → P (spinOnce arrivals s)) →
  (∀ s, P s → P (set_otherMapsNew false (set_myMapNew false s))) →
  (∀ now s, P s → P (state_of (merge now s))) →
  P (state_of (run ticks s)).
Proof.
  intros Hs Hspin Hflags Hmerge.
  induction ticks as [|[arrivals now] ticks IH] using rev_ind; [done|].
  rewrite run_snoc. apply state_of_and_then; [done|].
  intros s1 Hs1. unfold Merger.tick. simpl.
  destruct (_ || _); [|by apply Hspin].
  by apply Hmerge, Hflags, Hspin.
Qed.

Lemma diffs_numbered_ext s s' :
  diff_state s' = diff_state s → diffs_numbered s → diffs_numbered s'.
Proof.
  unfold diff_state, diffs_numbered. intros [= _ -> -> _]. done.
Qed.

Lemma diffs_numbered_merge now s :
  diffs_numbered s → diffs_numbered (state_of (merge now s)).
Proof.
  intros Hs.
  destruct (diff_state_merge_cases now s)
    as [Heq|(sys & n & m & _ & _ & _ & Hm & Heq)].
  - by apply (diffs_numbered_ext s).
  - unfold diff_state in Heq. injection Heq as _ Hdiffs Hnum _.
    destruct Hs as (Hs1 & Hs2 & Hs3).
    unfold diffs_numbered. rewrite Hdiffs, Hnum. simpl.
    split; [done|]. split; [rewrite length_app; simpl; lia|].
    intros j m' Hj. apply lookup_app_Some in Hj as [Hj|[Hlen Hj]].
    + by apply Hs3.
    + apply list_lookup_singleton_Some in Hj as [Hj <-].
      rewrite Hm. simpl. f_equal. lia.
Qed.

(** From construction on, whatever arrives, the diffs an agent has
    published are numbered 0, 1, 2, ... in the order of publication
    (modulo 2^32), and [num_diffs] and [num_octomaps] are their number. *)
Theorem published_diffs_are_numbered ticks type octo_type map_thresh :
  diffs_numbered
    (state_of (run ticks (new_OctomapMerger no_data type octo_type map_thresh))).
Proof.
  apply run_state.
  - split; [done|]. split; [done|]. intros j m Hj. by simpl in Hj.
  - intros arrivals s Hs.
    destruct (spinOnce_keeps arrivals s) as (Hd & _).
    by apply (diffs_numbered_ext s).
  - intros s Hs. by apply (diffs_numbered_ext s).
  - intros now s. apply diffs_numbered_merge.
Qed.

Lemma tree_diff_merge now s :
  tree_diff s = empty_tree → tree_diff (state_of (merge now s)) = empty_tree.
Proof.
  intros Hs. destruct (decode (octo_type s) (myMap s)) as [sys|] eqn:Hd.
  - destruct (merge_own_decoded now s sys Hd) as (diff & n & _ & ->).
    apply (state_of_and_then (λ s', tree_diff s' = empty_tree)).
    + apply (state_of_and_then (λ s', tree_diff s' = empty_tree)).
      * case_bool_decide; [|done].
        destruct (publish_diff_Done now
                    (set_msg (new_Octomap no_data)
                       (set_tree_diff diff (set_tree_sys (Some (expand sys)) s)))
                    (expand sys) eq_refl)
          as (merged & pruned & m & _ & _ & _ & ->). done.
      * intros s' Hs'.
        apply (for_range_state (λ s', tree_diff s' = empty_tree)); [done|].
        intros i s1 Hs1. unfold Merger.merge_neighbor.
        destruct (neighbors_ (neighbors s1) !! i) as [nb|]; [|done].
        apply (for_range_state (λ s', tree_diff s' = empty_tree)); [done|].
        intros j s2 Hs2. destruct (octomaps nb !! j) as [m|]; [|done].
        destruct (merge_neighbor_diff_cases (owner nb) m s2)
          as [->|[->|(merged & temp & ->)]]; done.
    + intros s' Hs'. unfold Merger.publish_merged. by case_bool_decide.
  - destruct (decide (type s = "robot")).
    + by rewrite merge_own_null_robot.
    + by rewrite merge_own_null_other.
Qed.

(** From construction on, the diff tree is empty between cycles, however a
    cycle stopped: [build_diff_tree] always starts from an empty diff
    tree. *)
Theorem tree_diff_is_empty_between_cycles ticks type octo_type map_thresh :
  tree_diff
    (state_of (run ticks (new_OctomapMerger no_data type octo_type map_thresh)))
  = empty_tree.
Proof.
  apply (run_state (λ s, tree_diff s = empty_tree)).
  - done.
  - intros arrivals s Hs. rewrite <- Hs. clear Hs.
    induction arrivals as [|a arrivals IH] using rev_ind; [done|].
    rewrite spinOnce_snoc. by destruct a.
  - done.
  - intros now s. apply tree_diff_merge.
Qed.


Lemma merge_maps_keeps_claimed (dest : OcTreeStamped (LogOdds := LogOdds))
    src overwrite dest' src' k n :
  merge_maps dest src false overwrite = Some (dest', src') →
  search dest k = Some n → timestamp n ≠ 0 →
  search dest' k = Some n.
Proof.
  intros Hm Hk Hn. destruct src as [src|]; [|done].
  destruct (merge_maps_no_replace_search dest src overwrite)
    as (d & s' & Hm' & Hspec).
  rewrite Hm in Hm'. injection Hm' as <- <-.
  rewrite Hspec, Hk. destruct (search src k); [|done].
  apply Z.eqb_neq in Hn. rewrite Hn. by rewrite andb_false_r.
Qed.

Lemma merge_maps_keeps_keys (dest : OcTreeStamped (LogOdds := LogOdds))
    src replace overwrite dest' src' k :
  merge_maps dest src replace overwrite = Some (dest', src') →
  is_Some (search dest k) → is_Some (search dest' k).
Proof.
  intros Hm Hk. destruct src as [src|]; [|done].
  rewrite merge_maps_Some in Hm. injection Hm as <- _.
  by apply foldl_merge_maps_body_is_Some.
Qed.

Lemma tree_merged_merge_neighbor_diff nid m s :
  tree_merged (state_of (merge_neighbor_diff nid m s)) = tree_merged s
  ∨ ∃ overwrite src',
      merge_maps (tree_merged s) (decode (octo_type s) m) false overwrite
      = Some (tree_merged (state_of (merge_neighbor_diff nid m s)), src').
Proof.
  destruct (decide (count (ledger s nid) (to_uint32 (hseq (header m))) = 0%nat))
    as [Hc|Hc].
  - rewrite merge_neighbor_diff_unseen by done.
    destruct (merge_maps _ _ _ _) as [[merged temp]|] eqn:Hm; [|by left].
    right. eauto.
  - left. by rewrite merge_neighbor_diff_seen.
Qed.

(** The loops over the neighbors keep a property of the merged map that
    every merge without [replace] keeps. *)
Lemma merge_neighbors_tree_merged (P : OcTreeStamped (LogOdds := LogOdds) → Prop) s :
  P (tree_merged s) →
  (∀ dest src overwrite dest' src',
     merge_maps dest src false overwrite = Some (dest', src') →
     P dest → P dest') →
  P (tree_merged (state_of (merge_neighbors s))).
Proof.
  intros Hs Hstep. unfold Merger.merge_neighbors.
  apply (for_range_state (λ s', P (tree_merged s'))); [done|].
  intros i s1 Hs1. unfold Merger.merge_neighbor.
  destruct (neighbors_ (neighbors s1) !! i) as [nb|]; [|done].
  apply (for_range_state (λ s', P (tree_merged s'))); [done|].
  intros j s2 Hs2. destruct (octomaps nb !! j) as [m|]; [|done].
  destruct (tree_merged_merge_neighbor_diff (owner nb) m s2)
    as [->|(overwrite & src' & Hm)]; [done|].
  by apply (Hstep _ _ _ _ _ Hm).
Qed.

(** Merging the neighbors' diffs never changes a node of the merged map
    whose timestamp is not 0, whatever the batches hold and however the
    loops stop. *)
Theorem merge_neighbors_keeps_claimed s k n :
  search (tree_merged s) k = Some n → timestamp n ≠ 0 →
  search (tree_merged (state_of (merge_neighbors s))) k = Some n.
Proof.
  intros Hk Hn.
  apply (merge_neighbors_tree_merged (λ t, search t k = Some n)); [done|].
  intros dest src overwrite dest' src' Hm Hd.
  by apply (merge_maps_keeps_claimed dest src overwrite dest' src').
Qed.

Lemma tree_merged_spinOnce arrivals s :
  tree_merged (spinOnce arrivals s) = tree_merged s.
Proof.
  induction arrivals as [|a arrivals IH] using rev_ind; [done|].
  rewrite spinOnce_snoc. by destruct a.
Qed.

Lemma merged_keys_merge now s k :
  is_Some (search (tree_merged s) k) →
  is_Some (search (tree_merged (state_of (merge now s))) k).
Proof.
  intros Hk. destruct (decode (octo_type s) (myMap s)) as [sys|] eqn:Hd.
  - destruct (merge_own_decoded now s sys Hd) as (diff & n & _ & ->).
    apply (state_of_and_then (λ s', is_Some (search (tree_merged s') k))).
    + apply (state_of_and_then (λ s', is_Some (search (tree_merged s') k))).
      * case_bool_decide; [|done].
        destruct (publish_diff_Done now
                    (set_msg (new_Octomap no_data)
                       (set_tree_diff diff (set_tree_sys (Some (expand sys)) s)))
                    (expand sys) eq_refl)
          as (merged & pruned & m & Hm & _ & _ & ->).
        by apply (merge_maps_keeps_keys _ _ _ _ _ _ k Hm).
      * intros s' Hs'.
        apply (merge_neighbors_tree_merged (λ t, is_Some (search t k))); [done|].
        intros dest src overwrite dest' src' Hm.
        by apply (merge_maps_keeps_keys dest src false overwrite dest' src').
    + intros s' Hs'. unfold Merger.publish_merged.
      case_bool_decide; cbn -[prune]; by rewrite search_prune.
  - destruct (decide (type s = "robot")).
    + by rewrite merge_own_null_robot.
    + by rewrite merge_own_null_other.
Qed.

(** Through any run, a key that resolves to a node of the merged map keeps
    resolving to one: neither the merges nor the pruning at the end of a
    cycle remove it. *)
Theorem merged_map_never_loses_a_key ticks s k :
  is_Some (search (tree_merged s) k) →
  is_Some (search (tree_merged (state_of (run ticks s))) k).
Proof.
  intros Hk. apply (run_state (λ s', is_Some (search (tree_merged s') k))).
  - done.
  - intros arrivals s1 Hs1. by rewrite tree_merged_spinOnce.
  - done.
  - intros now s1. apply merged_keys_merge.
Qed.


Lemma build_diff_tree_finds_differing baseline current current' diff n k
    (v : LogOdds) :
  build_diff_tree probability baseline (Some current) empty_tree
    = Some (current', diff, n) →
  search current k = Some v → differs probability baseline k v →
  search diff k = Some (clamp v).
Proof.
  rewrite build_diff_tree_Some. cbv zeta. intros [= _ <- _] Hk Hd.
  destruct (foldl_build_diff_tree_body probability baseline empty_tree 0
              (leafs (expand current)) k (NoDup_leafs _)) as [H1 _].
  apply H1; [|done]. by apply elem_of_leafs_expand.
Qed.

Lemma merge_maps_replace_search (dest : OcTreeStamped (LogOdds := LogOdds))
    src overwrite dest' src' k (v : LogOdds) :
  merge_maps dest (Some src) true overwrite = Some (dest', src') →
  search src k = Some v →
  search dest' k = Some {| value := clamp v; timestamp := 1 |}.
Proof.
  rewrite merge_maps_Some. intros [= <- _] Hk.
  apply foldl_merge_maps_body_replace; [apply NoDup_leafs|].
  by apply elem_of_leafs_expand.
Qed.

(** A cycle whose own map decodes and whose count exceeds the threshold:
    however the rest of the cycle goes, the baseline is the expanded own
    map, the count of diffs has grown by one, one diff with the next
    sequence number has been appended, and every node of the own map that
    is new or differs from the old baseline is in the merged map with
    timestamp 1 and the own map's value as the two [setNodeValue] calls on
    its way left it: clamped into the diff tree, and clamped again into the
    merged map. *)
Theorem merge_above_threshold now s sys n :
  decode (octo_type s) (myMap s) = Some sys →
  tree_diff s = empty_tree →
  num_nodes_of probability (tree_old s) (Some sys) = Some n →
  map_thresh s < n →
  let s' := state_of (merge now s) in
  tree_old s' = expand sys
  ∧ num_diffs s' = num_diffs s + 1
  ∧ (∃ m, octomaps (mapdiffs s') = octomaps (mapdiffs s) ++ [m]
        ∧ hseq (header m) = to_uint32 (num_diffs s))
  ∧ (∀ k (v : LogOdds), search sys k = Some v →
       differs probability (tree_old s) k v →
       search (tree_merged s') k
       = Some {| value := clamp (clamp v); timestamp := 1 |}).
Proof.
  intros Hd Hempty Hn Hlt. cbv zeta.
  destruct (merge_own_decoded now s sys Hd) as (diff & n' & Hb & Hmerge).
  pose proof (num_nodes_of_build_diff_tree (tree_old s) (Some sys) (tree_diff s))
    as Hn'. rewrite Hb, Hn in Hn'. injection Hn' as ->.
  rewrite bool_decide_true in Hmerge by done.
  set (s2 := set_msg (new_Octomap no_data)
               (set_tree_diff diff (set_tree_sys (Some (expand sys)) s))) in *.
  destruct (publish_diff_Done now s2 (expand sys) eq_refl)
    as (merged & pruned & m & Hm & Hhdr & _ & Hpub).
  rewrite Hpub in Hmerge. rewrite Hmerge. clear Hmerge Hpub.
  cbn -[prune expand merge_maps Merger.merge_neighbors Merger.publish_merged].
  match goal with |- context [merge_neighbors ?x] => set (s3 := x) end.
  assert (Hframe : diff_state (state_of (merge_neighbors s3 >>> publish_merged now))
                   = diff_state s3).
  { apply (state_of_and_then (λ s', diff_state s' = diff_state s3)).
    - apply diff_state_merge_neighbors.
    - intros s' Hs'. by rewrite diff_state_publish_merged. }
  unfold diff_state in Hframe. injection Hframe as Hold Hdiffs Hnum _.
  rewrite Hold, Hdiffs, Hnum.
  split; [done|]. split; [done|]. split.
  - exists m. split; [done|]. by rewrite Hhdr.
  - intros k v Hk Hdiff.
    assert (Hdk : search (tree_diff s2) k = Some (clamp v)).
    { rewrite Hempty in Hb.
      by apply (build_diff_tree_finds_differing (tree_old s) sys (expand sys)
                  diff n k v). }
    pose proof (merge_maps_replace_search _ _ _ _ _ k (clamp v) Hm Hdk) as Hmk.
    apply (state_of_and_then
             (λ s', search (tree_merged s') k
                    = Some {| value := clamp (clamp v); timestamp := 1 |})).
    + apply (merge_neighbors_tree_merged
               (λ t, search t k
                     = Some {| value := clamp (clamp v); timestamp := 1 |}));
        [done|].
      intros dest src overwrite dest' src' Hmm Hdest.
      by apply (merge_maps_keeps_claimed dest src overwrite dest' src').
    + intros s' Hs'. unfold Merger.publish_merged.
      case_bool_decide; cbn -[prune]; by rewrite search_prune.
Qed.

(** A cycle that returns without the abort of a robot ends by publishing
    the merged map: the last publication is the message encoded from the
    pruned merged tree the agent keeps, with id "OcTree", frame "world" and
    the time of the cycle. *)
Theorem merge_publishes_merged_map now s s' :
  merge now s = Done s' →
  decode (octo_type s) (myMap s) ≠ None ∨ type s ≠ "robot" →
  ∃ m, last (published s') = Some (pub_merged m)
     ∧ id m = "OcTree"
     ∧ frame_id (header m) = "world"
     ∧ stamp (header m) = now
     ∧ mdata m = (if octo_type s =? 0 then binaryDataStamped (tree_merged s')
                  else fullDataStamped (tree_merged s')).
Proof.
  intros Hdone Hnot.
  destruct (decode (octo_type s) (myMap s)) as [sys|] eqn:Hd.
  - destruct (merge_own_decoded now s sys Hd) as (diff & n & _ & Hmerge).
    rewrite Hmerge in Hdone. clear Hmerge.
    apply and_then_Done_inv in Hdone as (s3 & Hpre & Hdone).
    pose proof (inputs_merge now s) as Hin.
    assert (Hocto : octo_type s3 = octo_type s).
    { pose proof (f_equal state_of Hpre) as Hs3. simpl in Hs3. subst s3.
      match goal with |- octo_type (state_of ?o) = _ =>
        assert (Hi : inputs (state_of o) = inputs s) end.
      { apply (state_of_and_then (λ s', inputs s' = inputs s)).
        - apply (state_of_and_then (λ s', inputs s' = inputs s)); [|done].
          case_bool_decide; [|done]. by rewrite inputs_publish_diff.
        - intros s1 Hs1. by rewrite inputs_merge_neighbors. }
      unfold inputs in Hi. by injection Hi. }
    unfold Merger.publish_merged in Hdone. injection Hdone as <-.
    eexists. unfold publish. cbn -[prune]. rewrite last_snoc.
    split; [done|]. rewrite <- Hocto.
    destruct (bool_decide (type s3 = "base")); cbn -[prune]; done.
  - destruct Hnot as [?|Hnot]; [done|].
    by rewrite merge_own_null_other in Hdone.
Qed.


(** A robot whose own map does not decode aborts the cycle after the flags
    were reset: the neighbor batch that arrived stays unmerged (ledger,
    merged map and publications are untouched), and a later tick without
    new messages does not run a cycle for it. *)
Theorem robot_abort_leaves_neighbors_unmerged arrivals now now' s :
  type s = "robot" →
  myMapNew (spinOnce arrivals s) || otherMapsNew (spinOnce arrivals s) = true →
  decode (octo_type s) (myMap (spinOnce arrivals s)) = None →
  ∃ s', tick arrivals now s = Done s'
      ∧ neighbors s' = neighbors (spinOnce arrivals s)
      ∧ seqs s' = seqs s
      ∧ tree_merged s' = tree_merged s
      ∧ published s' = published s
      ∧ tick [] now' s' = Done s'.
Proof.
  intros Htype Hnew Hd.
  destruct (spinOnce_keeps arrivals s) as (Hds & Hcfg & Hseqs & _).
  injection Hcfg as Ht Ho _.
  pose proof (f_equal (λ x, x.2) Hds) as Hpub. simpl in Hpub.
  exists (set_tree_sys None
            (set_otherMapsNew false (set_myMapNew false (spinOnce arrivals s)))).
  split.
  - unfold Merger.tick. cbv zeta. rewrite Hnew.
    apply merge_own_null_robot.
    + cbn. by rewrite Ho.
    + cbn. by rewrite Ht.
  - split; [done|]. split; [done|]. split; [apply tree_merged_spinOnce|].
    split; [|done].
    cbn. clear -s. induction arrivals as [|a arrivals IH] using rev_ind; [done|].
    rewrite spinOnce_snoc. by destruct a.
Qed.

(** For sequence numbers below 2^31 the policy of a neighbor diff is as
    intended: an unseen diff is merged with [overwrite = true] exactly when
    its sequence number is at least every one recorded for that neighbor,
    and without it otherwise. *)
Theorem merge_neighbor_diff_policy nid m s :
  0 ≤ hseq (header m) < 2 ^ 31 →
  Forall (λ e, 0 ≤ e < 2 ^ 31) (ledger s nid) →
  count (ledger s nid) (hseq (header m)) = 0%nat →
  merge_neighbor_diff nid m s
  = match merge_maps (tree_merged s) (decode (octo_type s) m) false
            (bool_decide (Forall (λ e, e ≤ hseq (header m)) (ledger s nid))) with
    | None => Crash (recorded_state nid m s)
    | Some (merged, temp) =>
        Done (set_tree_temp (Some temp)
                (set_tree_merged merged (recorded_state nid m s)))
    end.
Proof.
  intros Hc Hv Hcount.
  assert (Hu : to_uint32 (hseq (header m)) = hseq (header m)).
  { apply to_uint32_id. lia. }
  rewrite merge_neighbor_diff_unseen by (by rewrite Hu).
  rewrite Hu.
  replace (overwrite_node_of (ledger s nid) (hseq (header m)))
    with (bool_decide (Forall (λ e, e ≤ hseq (header m)) (ledger s nid)));
    [done|].
  pose proof (overwrite_node_of_in_range (ledger s nid) (hseq (header m)) Hv Hc)
    as Hiff.
  destruct (overwrite_node_of _ _).
  - apply bool_decide_eq_true. by apply Hiff.
  - apply bool_decide_eq_false. intros HF. by apply Hiff in HF.
Qed.

Lemma count_zero v c : count v c = 0%nat ↔ c ∉ to_uint32 <$> v.
Proof.
  unfold count. induction v as [|e v IH]; simpl.
  - split; [intros _ Hin; by apply elem_of_nil in Hin|done].
  - rewrite not_elem_of_cons, <- IH.
    destruct (decide (to_uint32 e = c)) as [He|He].
    + rewrite filter_cons_True by done. simpl. split; [done|by intros [? _]].
    + rewrite filter_cons_False by done. split; [intros ?; split; [congruence|done]|by intros [_ ?]].
Qed.

Lemma recorded_once_merge_neighbor_diff nid m s :
  recorded_once s → recorded_once (state_of (merge_neighbor_diff nid m s)).
Proof.
  intros Hs.
  destruct (decide (count (ledger s nid) (to_uint32 (hseq (header m))) = 0%nat))
    as [Hc|Hc]; [|by rewrite merge_neighbor_diff_seen].
  assert (Hrec : recorded_once (recorded_state nid m s)).
  { intros nid'. unfold ledger, recorded_state. simpl.
    destruct (decide (c_str nid = c_str nid')) as [Heq|Hne].
    - rewrite <- Heq, lookup_total_insert_eq, fmap_app. simpl.
      rewrite to_uint32_to_int, (to_uint32_id (to_uint32 _))
        by apply to_uint32_range.
      apply NoDup_app. split; [apply Hs|]. split; [|apply NoDup_singleton].
      intros c Hin Hc'%list_elem_of_singleton. subst c.
      by apply count_zero in Hc.
    - rewrite lookup_total_insert_ne by done. apply Hs. }
  rewrite merge_neighbor_diff_unseen by done.
  by destruct (merge_maps _ _ _ _) as [[merged temp]|].
Qed.

(** A property of the ledger that every neighbor diff keeps is kept by a
    cycle, however it stops. *)
Lemma merge_seqs (P : gmap string (list Z) → Prop) now s :
  P (seqs s) →
  (∀ nid m s, P (seqs s) → P (seqs (state_of (merge_neighbor_diff nid m s)))) →
  P (seqs (state_of (merge now s))).
Proof.
  intros Hs Hstep. destruct (decode (octo_type s) (myMap s)) as [sys|] eqn:Hd.
  - destruct (merge_own_decoded now s sys Hd) as (diff & n & _ & ->).
    apply (state_of_and_then (λ s', P (seqs s'))).
    + apply (state_of_and_then (λ s', P (seqs s'))).
      * apply (state_of_and_then (λ s', P (seqs s'))); [|done].
        case_bool_decide; [|done]. by rewrite seqs_publish_diff.
      * intros s' Hs'. unfold Merger.merge_neighbors.
        apply (for_range_state (λ s', P (seqs s'))); [done|].
        intros i s1 Hs1. unfold Merger.merge_neighbor.
        destruct (neighbors_ (neighbors s1) !! i) as [nb|]; [|done].
        apply (for_range_state (λ s', P (seqs s'))); [done|].
        intros j s2 Hs2. destruct (octomaps nb !! j) as [m|]; [|done].
        by apply Hstep.
    + intros s' Hs'. by rewrite seqs_publish_merged.
  - destruct (decide (type s = "robot")).
    + by rewrite merge_own_null_robot.
    + by rewrite merge_own_null_other.
Qed.

(** From construction on, whatever the neighbors deliver and however
    cycles stop, no sequence number is recorded twice for a neighbor. *)
Theorem ledger_records_once ticks type octo_type map_thresh :
  recorded_once
    (state_of (run ticks (new_OctomapMerger no_data type octo_type map_thresh))).
Proof.
  apply (run_state (λ s, recorded_once s)).
  - intros nid. unfold ledger. simpl. rewrite lookup_total_empty. constructor.
  - intros arrivals s Hs nid. unfold ledger.
    destruct (spinOnce_keeps arrivals s) as (_ & _ & -> & _). apply Hs.
  - done.
  - intros now s Hs.
    refine (merge_seqs (λ q, ∀ nid, NoDup (to_uint32 <$> q !!! c_str nid))
              now s Hs _).
    intros nid m s1. apply recorded_once_merge_neighbor_diff.
Qed.


Lemma flags_merge now s :
  myMapNew s = false ∧ otherMapsNew s = false →
  myMapNew (state_of (merge now s)) = false
  ∧ otherMapsNew (state_of (merge now s)) = false.
Proof.
  intros Hs. destruct (decode (octo_type s) (myMap s)) as [sys|] eqn:Hd.
  - destruct (merge_own_decoded now s sys Hd) as (diff & n & _ & ->).
    apply (state_of_and_then
             (λ s', myMapNew s' = false ∧ otherMapsNew s' = false)).
    + apply (state_of_and_then
               (λ s', myMapNew s' = false ∧ otherMapsNew s' = false)).
      * case_bool_decide; [|done].
        destruct (publish_diff_Done now
                    (set_msg (new_Octomap no_data)
                       (set_tree_diff diff (set_tree_sys (Some (expand sys)) s)))
                    (expand sys) eq_refl)
          as (merged & pruned & m & _ & _ & _ & ->). done.
      * intros s' Hs'. unfold Merger.merge_neighbors.
        apply (for_range_state
                 (λ s', myMapNew s' = false ∧ otherMapsNew s' = false)); [done|].
        intros i s1 Hs1. unfold Merger.merge_neighbor.
        destruct (neighbors_ (neighbors s1) !! i) as [nb|]; [|done].
        apply (for_range_state
                 (λ s', myMapNew s' = false ∧ otherMapsNew s' = false)); [done|].
        intros j s2 Hs2. destruct (octomaps nb !! j) as [m|]; [|done].
        destruct (merge_neighbor_diff_cases (owner nb) m s2)
          as [->|[->|(merged & temp & ->)]]; done.
    + intros s' Hs'. unfold Merger.publish_merged. by case_bool_decide.
  - destruct (decide (type s = "robot")).
    + by rewrite merge_own_null_robot.
    + by rewrite merge_own_null_other.
Qed.

Lemma flags_binary_merge_maps (dest : OcTreeStamped (LogOdds := LogOdds))
    src replace overwrite dest' src' :
  merge_maps dest src replace overwrite = Some (dest', src') →
  flags_binary dest → flags_binary dest'.
Proof.
  intros Hm Hd k n Hk. destruct src as [src|]; [|done].
  destruct replace.
  - rewrite merge_maps_Some in Hm. injection Hm as <- _.
    destruct (search src k) as [v|] eqn:Hs.
    + rewrite (foldl_merge_maps_body_replace overwrite _ dest k v) in Hk.
      * injection Hk as <-. by right.
      * apply NoDup_leafs.
      * by apply elem_of_leafs_expand.
    + destruct (foldl_merge_maps_body_replace_outside overwrite
                  (leafs (expand src)) dest k
                  (not_elem_of_leafs_expand src k Hs)) as [Heq|(n' & _ & Heq)].
      * rewrite Heq in Hk. by apply (Hd k).
      * rewrite Heq in Hk. injection Hk as <-. by right.
  - destruct (merge_maps_no_replace_search dest src overwrite)
      as (d & s' & Hm' & Hspec).
    rewrite Hm in Hm'. injection Hm' as <- <-. rewrite Hspec in Hk.
    destruct (search src k) as [v|]; [|by apply (Hd k)].
    destruct (search dest k) as [n'|] eqn:Hdk.
    + destruct (overwrite && _).
      * injection Hk as <-. by left.
      * injection Hk as <-. by apply (Hd k).
    + injection Hk as <-. by left.
Qed.

Lemma flags_binary_merge now s :
  flags_binary (tree_merged s) →
  flags_binary (tree_merged (state_of (merge now s))).
Proof.
  intros Hs. destruct (decode (octo_type s) (myMap s)) as [sys|] eqn:Hd.
  - destruct (merge_own_decoded now s sys Hd) as (diff & n & _ & ->).
    apply (state_of_and_then (λ s', flags_binary (tree_merged s'))).
    + apply (state_of_and_then (λ s', flags_binary (tree_merged s'))).
      * case_bool_decide; [|done].
        destruct (publish_diff_Done now
                    (set_msg (new_Octomap no_data)
                       (set_tree_diff diff (set_tree_sys (Some (expand sys)) s)))
                    (expand sys) eq_refl)
          as (merged & pruned & m & Hm & _ & _ & ->).
        by apply (flags_binary_merge_maps _ _ _ _ _ _ Hm).
      * intros s' Hs'.
        apply (merge_neighbors_tree_merged flags_binary); [done|].
        intros dest src overwrite dest' src'. apply flags_binary_merge_maps.
    + intros s' Hs'. unfold Merger.publish_merged.
      assert (Hp : flags_binary (prune (tree_merged s'))).
      { intros k' n'. rewrite search_prune. apply Hs'. }
      by case_bool_decide.
  - destruct (decide (type s = "robot")).
    + by rewrite merge_own_null_robot.
    + by rewrite merge_own_null_other.
Qed.

(** From construction on, every node of the merged map has timestamp 0 or
    1: the timestamp is a two-valued provenance flag. *)
Theorem merged_map_flags_are_binary ticks type octo_type map_thresh :
  flags_binary
    (tree_merged
       (state_of (run ticks (new_OctomapMerger no_data type octo_type map_thresh)))).
Proof.
  apply (run_state (λ s, flags_binary (tree_merged s))).
  - intros k n Hk. done.
  - intros arrivals s Hs. by rewrite tree_merged_spinOnce.
  - done.
  - intros now s. apply flags_binary_merge.
Qed.

(** On first contact with a neighbor, whatever the sequence number, its
    diff is merged with [overwrite = true]. *)
Theorem merge_neighbor_diff_first_contact nid m s :
  ledger s nid = [] →
  merge_neighbor_diff nid m s
  = match merge_maps (tree_merged s) (decode (octo_type s) m) false true with
    | None => Crash (recorded_state nid m s)
    | Some (merged, temp) =>
        Done (set_tree_temp (Some temp)
                (set_tree_merged merged (recorded_state nid m s)))
    end.
Proof.
  intros Hl. rewrite merge_neighbor_diff_unseen by (by rewrite Hl).
  rewrite Hl. unfold overwrite_node_of. cbn [app max_element foldl].
  rewrite to_uint32_to_int, (to_uint32_id (to_uint32 _)) by apply to_uint32_range.
  by rewrite bool_decide_true.
Qed.

(** After a tick, however it ends, neither flag is set: what arrived is
    consumed by the cycle of its own tick. *)
Theorem tick_clears_flags arrivals now s :
  myMapNew (state_of (tick arrivals now s)) = false
  ∧ otherMapsNew (state_of (tick arrivals now s)) = false.
Proof.
  unfold Merger.tick. cbv zeta.
  destruct (myMapNew (spinOnce arrivals s)) eqn:H1,
           (otherMapsNew (spinOnce arrivals s)) eqn:H2; simpl;
    try (by split).
  all: set (s1 := set_otherMapsNew false (set_myMapNew false (spinOnce arrivals s)));
    apply (flags_merge now s1); done.
Qed.


(** *** The point cloud of a base station *)

Local Abbreviation tree2PointCloud := (Merger.tree2PointCloud isNodeOccupied).

Lemma NoDup_tree2PointCloud (t : OcTreeStamped (LogOdds := LogOdds)) :
  NoDup (tree2PointCloud t).
Proof.
  unfold Merger.tree2PointCloud.
  apply (sublist_NoDup _ ((leafs t).*1)); [apply NoDup_leafs|].
  apply fmap_sublist, sublist_filter.
Qed.

Lemma elem_of_tree2PointCloud (t : OcTreeStamped (LogOdds := LogOdds)) k :
  k ∈ tree2PointCloud t ↔
  ∃ n, (k, n) ∈ leafs t ∧ isNodeOccupied (value n) = true.
Proof.
  unfold Merger.tree2PointCloud. rewrite list_elem_of_fmap. split.
  - intros ([k' n] & -> & Hin). apply list_elem_of_filter in Hin as [Hocc Hin].
    by exists n.
  - intros (n & Hin & Hocc). exists (k, n). split; [done|].
    by apply list_elem_of_filter.
Qed.

Lemma tree2PointCloud_search (t : OcTreeStamped (LogOdds := LogOdds)) k :
  k ∈ tree2PointCloud t →
  ∃ n, search t k = Some n ∧ isNodeOccupied (value n) = true.
Proof.
  intros (n & Hin & Hocc)%elem_of_tree2PointCloud.
  exists n. split; [by apply search_leafs|done].
Qed.

(** [tree2PointCloud] reports no key twice, every key it reports resolves
    in the tree to an occupied node, and on an expanded tree it reports
    exactly the keys that resolve to an occupied node. *)
Theorem tree2PointCloud_occupied (t : OcTreeStamped (LogOdds := LogOdds)) :
  NoDup (tree2PointCloud t)
  ∧ (∀ k, k ∈ tree2PointCloud t →
       ∃ n, search t k = Some n ∧ isNodeOccupied (value n) = true)
  ∧ (∀ k, k ∈ tree2PointCloud (expand t) ↔
       ∃ n, search t k = Some n ∧ isNodeOccupied (value n) = true).
Proof.
  split; [apply NoDup_tree2PointCloud|]. split; [apply tree2PointCloud_search|].
  intros k. rewrite elem_of_tree2PointCloud.
  by setoid_rewrite elem_of_leafs_expand.
Qed.

(** A cycle of a base station that returns publishes the point cloud just
    before the merged map: it carries the time of the cycle and the frame
    "world", holds no key twice, and each of its keys resolves to an
    occupied node of the merged map the station keeps. *)
Theorem base_publishes_point_cloud now s s' :
  merge now s = Done s' → type s = "base" →
  ∃ pre pc m,
    published s' = pre ++ [pub_pcl pc; pub_merged m]
    ∧ pc_stamp pc = now ∧ pc_frame_id pc = "world"
    ∧ NoDup (points pc)
    ∧ ∀ k, k ∈ points pc →
        ∃ n, search (tree_merged s') k = Some n
           ∧ isNodeOccupied (value n) = true.
Proof.
  intros Hdone Htype.
  destruct (decode (octo_type s) (myMap s)) as [sys|] eqn:Hd.
  - destruct (merge_own_decoded now s sys Hd) as (diff & n & _ & Hmerge).
    rewrite Hmerge in Hdone. clear Hmerge.
    apply and_then_Done_inv in Hdone as (s3 & Hpre & Hdone).
    assert (Ht3 : type s3 = "base").
    { pose proof (f_equal state_of Hpre) as Hs3. simpl in Hs3. subst s3.
      match goal with |- type (state_of ?o) = _ =>
        assert (Hi : inputs (state_of o) = inputs s) end.
      { apply (state_of_and_then (λ s', inputs s' = inputs s)).
        - apply (state_of_and_then (λ s', inputs s' = inputs s)); [|done].
          case_bool_decide; [|done]. by rewrite inputs_publish_diff.
        - intros s1 Hs1. by rewrite inputs_merge_neighbors. }
      unfold inputs in Hi. injection Hi as -> _. done. }
    unfold Merger.publish_merged in Hdone.
    rewrite bool_decide_true in Hdone by done. injection Hdone as <-.
    eexists (published s3), _, _. unfold publish. cbn -[prune Merger.tree2PointCloud].
    rewrite <- app_assoc. split; [done|]. split; [done|]. split; [done|].
    split; [apply NoDup_tree2PointCloud|].
    intros k Hk. rewrite search_prune. by apply tree2PointCloud_search.
  - rewrite merge_own_null_other in Hdone; [done|done|]. by rewrite Htype.
Qed.

Lemma published_merge_neighbors s :
  published (state_of (merge_neighbors s)) = published s.
Proof.
  unfold Merger.merge_neighbors.
  apply (for_range_state (λ s', published s' = published s)); [done|].
  intros i s1 Hs1. unfold Merger.merge_neighbor.
  destruct (neighbors_ (neighbors s1) !! i) as [nb|]; [|done].
  apply (for_range_state (λ s', published s' = published s)); [done|].
  intros j s2 Hs2. destruct (octomaps nb !! j) as [m|]; [|done].
  destruct (merge_neighbor_diff_cases (owner nb) m s2)
    as [->|[->|(merged & temp & ->)]]; done.
Qed.

Lemma published_spinOnce arrivals s :
  published (spinOnce arrivals s) = published s.
Proof.
  induction arrivals as [|a arrivals IH] using rev_ind; [done|].
  rewrite spinOnce_snoc. by destruct a.
Qed.

Lemma point_clouds_merge now s :
  type s ≠ "base" → point_clouds (state_of (merge now s)) = point_clouds s.
Proof.
  intros Htype. destruct (decode (octo_type s) (myMap s)) as [sys|] eqn:Hd.
  - destruct (merge_own_decoded now s sys Hd) as (diff & n & _ & ->).
    set (P := λ s' : St, type s' = type s ∧ point_clouds s' = point_clouds s).
    enough (HP : P (state_of
                      ((if bool_decide (map_thresh s < n)
                        then publish_diff now
                               (set_msg (new_Octomap no_data)
                                  (set_tree_diff diff
                                     (set_tree_sys (Some (expand sys)) s)))
                        else Done (set_msg (new_Octomap no_data)
                                     (set_tree_diff diff
                                        (set_tree_sys (Some (expand sys)) s))))
                       >>> (λ s, Done (set_tree_diff (clear (tree_diff s)) s))
                       >>> merge_neighbors >>> publish_merged now)))
      by apply HP.
    apply (state_of_and_then P).
    + apply (state_of_and_then P).
      * apply (state_of_and_then P); [|done].
        case_bool_decide; [|done].
        destruct (publish_diff_Done now
                    (set_msg (new_Octomap no_data)
                       (set_tree_diff diff (set_tree_sys (Some (expand sys)) s)))
                    (expand sys) eq_refl)
          as (merged & pruned & m & _ & _ & _ & ->).
        split; [done|]. unfold point_clouds, publish. cbn -[prune expand].
        rewrite !filter_app, !filter_cons_False, !filter_nil, !app_nil_r by done.
        done.
      * intros s1 [Ht1 Hc1]. split.
        -- pose proof (inputs_merge_neighbors s1) as Hi. unfold inputs in Hi.
           injection Hi as -> _. done.
        -- unfold point_clouds. by rewrite published_merge_neighbors.
    + intros s1 [Ht1 Hc1]. unfold Merger.publish_merged.
      rewrite bool_decide_false by (by rewrite Ht1).
      split; [done|]. unfold point_clouds, publish. cbn -[prune].
      rewrite filter_app, filter_cons_False, filter_nil, app_nil_r by done.
      done.
  - destruct (decide (type s = "robot")).
    + by rewrite merge_own_null_robot.
    + by rewrite merge_own_null_other.
Qed.

(** An agent that is not a base station never publishes a point cloud,
    whatever arrives and however its cycles stop. *)
Theorem robot_publishes_no_point_cloud ticks s :
  type s ≠ "base" →
  point_clouds (state_of (run ticks s)) = point_clouds s.
Proof.
  intros Htype.
  apply (run_state (λ s', type s' = type s ∧ point_clouds s' = point_clouds s)).
  - done.
  - intros arrivals s1 [Ht1 Hc1].
    destruct (spinOnce_keeps arrivals s1) as (_ & Hcfg & _).
    injection Hcfg as -> _ _. split; [done|].
    unfold point_clouds. by rewrite published_spinOnce.
  - done.
  - intros now s1 [Ht1 Hc1]. split.
    + pose proof (inputs_merge now s1) as Hi. unfold inputs in Hi.
      injection Hi as -> _. done.
    + rewrite point_clouds_merge; [done|]. by rewrite Ht1.
Qed.

(** *** When a cycle returns *)

Lemma for_range_returned (P : St → Prop) n (body : nat → St → outcome) s :
  P s →
  (∀ i s, (i < Z.to_nat n)%nat → P s →
     returned (body i s) = true ∧ P (state_of (body i s))) →
  returned (for_range n body s) = true ∧ P (state_of (for_range n body s)).
Proof.
  intros Hs Hbody. rewrite for_range_of_nat.
  assert (Hk : ∀ k, (k ≤ Z.to_nat n)%nat →
            returned (for_range (Z.of_nat k) body s) = true
            ∧ P (state_of (for_range (Z.of_nat k) body s))).
  { induction k as [|k IH]; intros Hle.
    - by rewrite for_range_nonpos.
    - rewrite for_range_S. destruct IH as [Hr HP]; [lia|].
      destruct (for_range (Z.of_nat k) body s) as [s1|s1]; [|done].
      simpl in *. apply Hbody; [lia|done]. }
  apply Hk. lia.
Qed.

Lemma merge_neighbor_diff_returns nid m s :
  decode (octo_type s) m ≠ None →
  returned (merge_neighbor_diff nid m s) = true.
Proof.
  intros Hd.
  destruct (decide (count (ledger s nid) (to_uint32 (hseq (header m))) = 0%nat))
    as [Hc|Hc]; [|by rewrite merge_neighbor_diff_seen].
  rewrite merge_neighbor_diff_unseen by done.
  destruct (decode (octo_type s) m) as [src|]; [|done].
  by rewrite merge_maps_Some.
Qed.

Lemma merge_neighbors_returns s :
  batch_decodes binaryMsgToMap fullMsgToMap (octo_type s) (neighbors s) →
  returned (merge_neighbors s) = true.
Proof.
  intros [Hnum Hnbs]. unfold Merger.merge_neighbors.
  apply (for_range_returned (λ s', inputs s' = inputs s)); [done|].
  intros i s1 Hi Hs1.
  assert (Hn1 : neighbors s1 = neighbors s).
  { unfold inputs in Hs1. by injection Hs1. }
  assert (Ho1 : octo_type s1 = octo_type s).
  { unfold inputs in Hs1. by injection Hs1. }
  unfold Merger.merge_neighbor. rewrite Hn1.
  destruct (lookup_lt_is_Some_2 (neighbors_ (neighbors s)) i) as [nb Hnb]; [lia|].
  rewrite Hnb.
  destruct (Hnbs nb (list_elem_of_lookup_2 _ _ _ Hnb)) as [Hlen Hdec].
  apply (for_range_returned (λ s', inputs s' = inputs s)); [done|].
  intros j s2 Hj Hs2.
  destruct (lookup_lt_is_Some_2 (octomaps nb) j) as [m Hm]; [lia|].
  rewrite Hm. split.
  - apply merge_neighbor_diff_returns.
    replace (octo_type s2) with (octo_type s).
    + apply Hdec. by apply list_elem_of_lookup_2 in Hm.
    + unfold inputs in Hs2. by injection Hs2.
  - by rewrite inputs_merge_neighbor_diff.
Qed.

(** A cycle returns when the own map decodes and the neighbor batch can be
    walked: its counts do not exceed its arrays and every diff in it
    decodes. *)
Theorem merge_returns now s :
  decode (octo_type s) (myMap s) ≠ None →
  batch_decodes binaryMsgToMap fullMsgToMap (octo_type s) (neighbors s) →
  returned (merge now s) = true.
Proof.
  intros Hd Hbatch.
  destruct (decode (octo_type s) (myMap s)) as [sys|] eqn:Hsys; [|done].
  destruct (merge_own_decoded now s sys Hsys) as (diff & n & _ & ->).
  match goal with |- returned (?o >>> _ >>> _ >>> _) = true =>
    assert (Ho : ∃ s1, o = Done s1 ∧ inputs s1 = inputs s) end.
  { case_bool_decide; [|by eexists].
    destruct (publish_diff_Done now
                (set_msg (new_Octomap no_data)
                   (set_tree_diff diff (set_tree_sys (Some (expand sys)) s)))
                (expand sys) eq_refl)
      as (merged & pruned & m & _ & _ & _ & ->).
    by eexists. }
  destruct Ho as (s1 & -> & Hs1).
  cbn -[Merger.merge_neighbors Merger.publish_merged clear].
  match goal with |- context [merge_neighbors ?x] => set (s2 := x) end.
  assert (Hr : returned (merge_neighbors s2) = true).
  { apply merge_neighbors_returns.
    replace (octo_type s2) with (octo_type s)
      by (unfold inputs in Hs1; by injection Hs1).
    replace (neighbors s2) with (neighbors s)
      by (unfold inputs in Hs1; by injection Hs1).
    done. }
  destruct (merge_neighbors s2) as [s3|s3]; [|done]. done.
Qed.

(** *** What a tick keeps of the arrivals *)

Lemma spinOnce_latest arrivals s :
  spinOnce arrivals s
  = match last (own_arrivals arrivals) with
    | Some m => callback_myMap m
    | None => λ s, s
    end (match last (neighbor_arrivals arrivals) with
         | Some nbs => callback_neighborMaps nbs s
         | None => s
         end).
Proof.
  induction arrivals as [|a arrivals IH] using rev_ind; [done|].
  rewrite spinOnce_snoc, IH. unfold own_arrivals, neighbor_arrivals.
  rewrite !omap_app.
  destruct a as [m|nbs]; simpl; rewrite ?app_nil_r, ?last_snoc.
  - by destruct (last (omap _ arrivals)).
  - by destruct (last (omap _ arrivals)), (last (omap _ arrivals)).
Qed.

(** Of the messages that arrive before a tick only the last own map and
    the last neighbor batch count: two sequences of arrivals that agree on
    them give the same tick. *)
Theorem tick_uses_latest_arrivals arrivals arrivals' now s :
  last (own_arrivals arrivals) = last (own_arrivals arrivals') →
  last (neighbor_arrivals arrivals) = last (neighbor_arrivals arrivals') →
  tick arrivals now s = tick arrivals' now s.
Proof.
  intros Hown Hnbs. unfold Merger.tick.
  by rewrite (spinOnce_latest arrivals), (spinOnce_latest arrivals'), Hown, Hnbs.
Qed.


End Cycle.



End MergerFacts.

(** ** The claims on concrete inputs *)

Module ScenarioFacts.
Import Octree OctreeFacts Merger MergerFacts Scenario.

(** C8, as stated, fails: diffing the pruned block leaves [current] with
    eight leaves where it had one node. *)
Lemma build_diff_tree_modifies_current :
  ∃ current' diff n,
    build_diff_tree (λ v : Z, v) empty_tree (Some tree_block) empty_tree
      = Some (current', diff, n)
    ∧ current' ≠ tree_block
    ∧ length (leafs tree_block) = 1%nat
    ∧ length (leafs current') = 8%nat.
Proof.
  eexists _, _, _. split; [vm_compute; reflexivity|].
  split; [|split; vm_compute; reflexivity].
  intros Heq. apply (f_equal (λ t, length (leafs t))) in Heq.
  vm_compute in Heq. discriminate.
Qed.

(** C1, as stated, fails: a source that holds 9.00 and -9.00, as a full
    message can deliver them, leaves 3.51 and -2.00 at their keys, the
    values [setNodeValue] clamps them to. *)
Lemma merge_maps_authoritative_clamps :
  search tree_hot key_a = Some 900
  ∧ search tree_hot key_b = Some (-900)
  ∧ ∃ dest' src',
      merge_maps empty_tree (Some tree_hot) true false = Some (dest', src')
      ∧ search dest' key_a = Some {| value := 351; timestamp := 1 |}
      ∧ search dest' key_b = Some {| value := -200; timestamp := 1 |}.
Proof.
  split; [vm_compute; reflexivity|]. split; [vm_compute; reflexivity|].
  eexists _, _. split; [vm_compute; reflexivity|].
  split; vm_compute; reflexivity.
Qed.

(** C3, as stated, fails: the nodes of [current] that hold 9.00 and -9.00
    are recorded with 3.51 and -2.00, and a tree with a NaN node diffed
    against itself gives a diff that holds that node. *)
Lemma build_diff_tree_clamps :
  search tree_hot key_a = Some 900
  ∧ search tree_hot key_b = Some (-900)
  ∧ (∃ current' diff n,
       build_diff_tree (λ v : Z, v) empty_tree (Some tree_hot) empty_tree
         = Some (current', diff, n)
       ∧ search diff key_a = Some 351
       ∧ search diff key_b = Some (-200))
  ∧ search tree_nan key_a = Some None
  ∧ ∃ current' diff n,
      build_diff_tree (λ v : option Z, v) tree_nan (Some tree_nan) empty_tree
        = Some (current', diff, n)
      ∧ search diff key_a = Some None
      ∧ n = 0.
Proof.
  split; [vm_compute; reflexivity|]. split; [vm_compute; reflexivity|]. split.
  { eexists _, _, _. split; [vm_compute; reflexivity|].
    split; vm_compute; reflexivity. }
  split; [vm_compute; reflexivity|].
  eexists _, _, _. split; [vm_compute; reflexivity|].
  split; vm_compute; reflexivity.
Qed.

Lemma merge_base_null_own_map_witness :
  decoder (myMap (callback_myMap (message 0 None) base)) = None
  ∧ type (callback_myMap (message 0 None) base) = "base"
  ∧ merge_cycle 1 (callback_myMap (message 0 None) base)
    = Crash (set_tree_sys None (callback_myMap (message 0 None) base)).
Proof.
  split; [reflexivity|]. split; [reflexivity|].
  exact (merge_base_null_own_map (λ v : Z, v) decoder decoder Some Some
           (λ _, None) (λ _, None) None (λ v, 0 <=? v) 1
           (callback_myMap (message 0 None) base) eq_refl eq_refl).
Defined.

Lemma merge_neighbor_diff_null_witness :
  count (ledger robot "A") (to_uint32 0) = 0%nat
  ∧ decoder (message 0 None) = None
  ∧ neighbor_diff "A" (message 0 None) robot
    = Crash (recorded_state decoder decoder "A" (message 0 None) robot).
Proof.
  split; [reflexivity|]. split; [reflexivity|].
  exact (merge_neighbor_diff_null decoder decoder "A" (message 0 None) robot
           eq_refl eq_refl).
Defined.

Lemma merge_neighbor_diff_after_large_seq_witness :
  ledger after_large_seq "A" = [to_int 2147483648]
  ∧ to_uint32 5 = 5
  ∧ ∃ merged temp,
      merge_maps (tree_merged after_large_seq) (Some tree_ab) false true
        = Some (merged, temp)
      ∧ neighbor_diff "A" (message 5 (Some tree_ab)) after_large_seq
        = Done (set_tree_temp (Some temp)
                  (set_tree_merged merged
                     (recorded_state decoder decoder "A"
                        (message 5 (Some tree_ab)) after_large_seq))).
Proof.
  split; [vm_compute; reflexivity|]. split; [reflexivity|].
  eexists _, _. split; [apply merge_maps_Some|].
  exact (merge_neighbor_diff_after_large_seq decoder decoder "A"
           (message 5 (Some tree_ab)) after_large_seq
           ltac:(vm_compute; reflexivity) eq_refl).
Defined.

Lemma no_diff_below_threshold_witness :
  below_threshold (λ v : Z, v) decoder decoder (tree_old robot)
    (octo_type robot) (map_thresh robot) (own_maps robot small_ticks)
  ∧ diff_state (state_of (run_ticks small_ticks robot)) = diff_state robot
  ∧ diff_state (state_of (merge_cycle 1 robot)) = diff_state robot.
Proof.
  assert (Hb : below_threshold (λ v : Z, v) decoder decoder (tree_old robot)
                 (octo_type robot) (map_thresh robot)
                 (own_maps robot small_ticks)).
  { intros m n Hin%list_elem_of_In Hn. vm_compute in Hin.
    destruct Hin as [<-|[<-|[<-|[]]]]; vm_compute in Hn;
      [discriminate| |]; injection Hn as <-; vm_compute; discriminate. }
  split; [exact Hb|].
  exact (no_diff_below_threshold (λ v : Z, v) decoder decoder Some Some
           (λ _, None) (λ _, None) None (λ v, 0 <=? v) small_ticks 1 robot Hb).
Defined.

(** The batch of two diffs whose first does not decode: the loop stops at
    it with its sequence number 0 recorded; the sequence number 1 of the
    second diff is not recorded. *)
Lemma ledger_records_before_decode_witness :
  ledger (state_of (neighbor_diff "A" (message 4 None) robot)) "A" = [4]
  ∧ neighbor_diff "A" (message 2147483648 (Some tree_ab)) after_large_seq
    = Done after_large_seq
  ∧ neighbor_batch_loop 0 bad_batch
    = Crash (recorded_state decoder decoder "A" (message 0 None) bad_batch)
  ∧ ledger (state_of (neighbor_batch_loop 0 bad_batch)) "A" = [0]
  ∧ count (ledger (state_of (neighbor_batch_loop 0 bad_batch)) "A") 1 = 0%nat
  ∧ ∃ p, (p ≤ 2)%nat
       ∧ (∀ c, count (ledger (state_of (neighbor_batch_loop 0 bad_batch)) "A") c
               ≠ 0%nat ↔
               count (ledger bad_batch "A") c ≠ 0%nat
               ∨ ∃ j m, (j < p)%nat
                      ∧ [message 0 None; message 1 (Some tree_a)] !! j = Some m
                      ∧ to_uint32 (hseq (header m)) = c)
       ∧ (neighbor_batch_loop 0 bad_batch
          = Done (state_of (neighbor_batch_loop 0 bad_batch))
          ∧ p = 2%nat
          ∨ neighbor_batch_loop 0 bad_batch
            = Crash (state_of (neighbor_batch_loop 0 bad_batch))
            ∧ ∃ j m, p = S j
                   ∧ [message 0 None; message 1 (Some tree_a)] !! j = Some m
                   ∧ decoder m = None).
Proof.
  pose proof (ledger_records_before_decode (λ v : Z, v) decoder decoder
                Some Some (λ _, None) (λ _, None) None (λ v, 0 <=? v))
    as (Hrec & Hseen & Hbatch & _).
  split; [exact (proj1 (Hrec "A" (message 4 None) robot eq_refl))|].
  split.
  { apply (Hseen "A" (message 2147483648 (Some tree_ab)) after_large_seq).
    vm_compute. discriminate. }
  split; [vm_compute; reflexivity|].
  split; [vm_compute; reflexivity|].
  split; [vm_compute; reflexivity|].
  exact (Hbatch 0%nat
           {| owner := "A"; num_octomaps := 2;
              octomaps := [message 0 None; message 1 (Some tree_a)] |}
           bad_batch eq_refl ltac:(simpl; lia)).
Defined.

(** The scenario of C4: neighbor "A" delivers 3, 1, 2 and then 1 again.
    Only 3 is merged with [overwrite = true], and the ledger ends as
    3, 1, 2. *)
Example merge_neighbors_3_1_2 :
  overwrite_node_of [] 3 = true
  ∧ overwrite_node_of [3] 1 = false
  ∧ overwrite_node_of [3; 1] 2 = false
  ∧ ∃ s, neighbor_loops
           (callback_neighborMaps
              (batch [message 3 (Some tree_a); message 1 (Some tree_ab);
                      message 2 (Some tree_a); message 1 (Some tree_ab)])
              robot) = Done s
         ∧ ledger s "A" = [3; 1; 2].
Proof.
  repeat (split; [reflexivity|]).
  eexists. split; vm_compute; reflexivity.
Qed.

(** *** Further properties on concrete inputs *)

Local Abbreviation codec_args f :=
  (f (λ v : Z, v) decoder decoder (@Some Tree) (@Some Tree)
     (λ _ : Stamped, @None Tree) (λ _ : Stamped, @None Tree) (@None Tree)
     (λ v : Z, 0 <=? v)).

Lemma merge_maps_additive_idempotent_witness :
  ∃ dest' src',
    merge_maps merged_a (Some tree_ab) false false = Some (dest', src')
    ∧ merge_maps dest' (Some src') false false = Some (dest', src')
    ∧ merge_maps dest' (Some tree_ab) false false = Some (dest', src').
Proof.
  eexists _, _. split; [apply merge_maps_Some|].
  exact (merge_maps_additive_idempotent merged_a tree_ab _ _
           (merge_maps_Some merged_a tree_ab false false)).
Defined.

(** The authoritative merge of the eighth voxel of a block whose other
    seven came from a neighbor with the same value: the block is pruned to
    one node and all eight voxels end with timestamp 1. *)
Lemma merge_maps_replace_outside_source_witness :
  search tree_eighth key_sibling = None
  ∧ search merged_seven key_sibling = Some {| value := 7; timestamp := 0 |}
  ∧ (λ r, search r.1 key_sibling)
      <$> merge_maps merged_seven (Some tree_eighth) true false
    = Some (Some {| value := 7; timestamp := 1 |})
  ∧ ∃ dest' src',
      merge_maps merged_seven (Some tree_eighth) true false = Some (dest', src')
      ∧ (search dest' key_sibling = search merged_seven key_sibling
         ∨ ∃ n, search merged_seven key_sibling = Some n
              ∧ search dest' key_sibling
                = Some {| value := value n; timestamp := 1 |}).
Proof.
  split; [vm_compute; reflexivity|]. split; [vm_compute; reflexivity|].
  split; [vm_compute; reflexivity|].
  exact (merge_maps_replace_outside_source merged_seven tree_eighth false
           key_sibling ltac:(vm_compute; reflexivity)).
Defined.

Lemma merge_neighbors_keeps_claimed_witness :
  search (tree_merged with_claimed) key_a = Some {| value := 9; timestamp := 1 |}
  ∧ search (tree_merged (state_of (neighbor_loops with_claimed))) key_a
    = Some {| value := 9; timestamp := 1 |}.
Proof.
  split; [vm_compute; reflexivity|].
  exact (merge_neighbors_keeps_claimed decoder decoder with_claimed key_a
           {| value := 9; timestamp := 1 |} ltac:(vm_compute; reflexivity)
           ltac:(vm_compute; discriminate)).
Defined.

Lemma merged_map_never_loses_a_key_witness :
  is_Some (search (tree_merged with_claimed) key_a)
  ∧ is_Some (search (tree_merged (state_of (run_ticks small_ticks with_claimed)))
               key_a).
Proof.
  assert (H : is_Some (search (tree_merged with_claimed) key_a)).
  { vm_compute. eauto. }
  split; [exact H|].
  exact (codec_args (@merged_map_never_loses_a_key Z Z (option Tree) _ _ _)
           small_ticks with_claimed key_a H).
Defined.

(** The scenario with threshold 1 and an own map of two voxels on an empty
    baseline: two new nodes, both claimed in the merged map. *)
Lemma merge_above_threshold_witness :
  num_nodes_of (λ v : Z, v) (tree_old robot_low) (Some tree_ab) = Some 2
  ∧ tree_old (state_of (merge_cycle 5 robot_low)) = expand tree_ab
  ∧ num_diffs (state_of (merge_cycle 5 robot_low)) = 1
  ∧ search (tree_merged (state_of (merge_cycle 5 robot_low))) key_a
    = Some {| value := 9; timestamp := 1 |}
  ∧ search (tree_merged (state_of (merge_cycle 5 robot_low))) key_b
    = Some {| value := -4; timestamp := 1 |}.
Proof.
  split; [vm_compute; reflexivity|].
  destruct (codec_args (@merge_above_threshold Z Z (option Tree) _ _ _)
              5 robot_low tree_ab 2 eq_refl eq_refl
              ltac:(vm_compute; reflexivity) ltac:(vm_compute; reflexivity))
    as (Hold & Hnum & _ & Hclaimed).
  assert (Hnew : ∀ k v, differs (λ v : Z, v) (tree_old robot_low) k v).
  { intros k v. left. reflexivity. }
  split; [exact Hold|]. split; [exact Hnum|]. split.
  - assert (Ha : search tree_ab key_a = Some 9) by (vm_compute; reflexivity).
    exact (Hclaimed key_a 9 Ha (Hnew key_a 9)).
  - assert (Hb : search tree_ab key_b = Some (-4)) by (vm_compute; reflexivity).
    exact (Hclaimed key_b (-4) Hb (Hnew key_b (-4))).
Defined.

Lemma merge_publishes_merged_map_witness :
  returned (merge_cycle 5 robot_low) = true
  ∧ ∃ m, last (published (state_of (merge_cycle 5 robot_low)))
         = Some (pub_merged m)
       ∧ id m = "OcTree" ∧ frame_id (header m) = "world"
       ∧ stamp (header m) = 5.
Proof.
  unfold merge_cycle.
  assert (Hr : returned (codec_args (@merge Z Z (option Tree) _ _ _) 5 robot_low)
               = true).
  { vm_compute. reflexivity. }
  split; [exact Hr|].
  pose proof (returned_Done _ Hr) as Hd.
  assert (Hn : msgToMap decoder decoder (octo_type robot_low)
                 (myMap robot_low) ≠ None
               ∨ type robot_low ≠ "robot") by (left; discriminate).
  pose proof (codec_args (@merge_publishes_merged_map Z Z (option Tree) _ _ _)
              5 robot_low _ Hd Hn) as H.
  destruct H as (m & Hlast & Hid & Hframe & Hstamp & _).
  exists m.
  split; [exact Hlast|].
  split; [exact Hid|].
  split; [exact Hframe|exact Hstamp].
Defined.

Lemma robot_abort_leaves_neighbors_unmerged_witness :
  ∃ s', Scenario.tick_once bad_own_map 1 robot = Done s'
      ∧ seqs s' = seqs robot
      ∧ published s' = published robot
      ∧ Scenario.tick_once [] 2 s' = Done s'.
Proof.
  destruct (codec_args (@robot_abort_leaves_neighbors_unmerged Z Z (option Tree) _ _ _)
              bad_own_map 1 2 robot eq_refl eq_refl eq_refl)
    as (s' & Htick & _ & Hseqs & _ & Hpub & Hnext).
  exists s'. auto.
Defined.

Lemma merge_neighbor_diff_policy_witness :
  ∃ s, ledger s "A" = [3]
     ∧ ∃ merged temp,
         merge_maps (tree_merged s) (Some tree_ab) false false
           = Some (merged, temp)
         ∧ neighbor_diff "A" (message 1 (Some tree_ab)) s
           = Done (set_tree_temp (Some temp)
                     (set_tree_merged merged
                        (recorded_state decoder decoder "A"
                           (message 1 (Some tree_ab)) s))).
Proof.
  exists (state_of (neighbor_diff "A" (message 3 (Some tree_a)) robot)).
  split; [vm_compute; reflexivity|].
  eexists _, _. split; [apply merge_maps_Some|].
  exact (merge_neighbor_diff_policy decoder decoder "A"
           (message 1 (Some tree_ab))
           (state_of (neighbor_diff "A" (message 3 (Some tree_a)) robot))
           ltac:(simpl; lia)
           ltac:(replace (ledger _ _) with [3] by (vm_compute; reflexivity);
                 repeat constructor; simpl; lia)
           ltac:(vm_compute; reflexivity)).
Defined.

Lemma merge_neighbor_diff_first_contact_witness :
  ledger robot "A" = []
  ∧ ∃ merged temp,
      merge_maps (tree_merged robot) (Some tree_a) false true
        = Some (merged, temp)
      ∧ neighbor_diff "A" (message 4000000000 (Some tree_a)) robot
        = Done (set_tree_temp (Some temp)
                  (set_tree_merged merged
                     (recorded_state decoder decoder "A"
                        (message 4000000000 (Some tree_a)) robot))).
Proof.
  split; [reflexivity|].
  eexists _, _. split; [apply merge_maps_Some|].
  exact (merge_neighbor_diff_first_contact decoder decoder "A"
           (message 4000000000 (Some tree_a)) robot eq_refl).
Defined.


(** The base station with threshold 1: of the two voxels of its own map
    only the occupied one is in the point cloud. *)
Lemma base_publishes_point_cloud_witness :
  returned (merge_cycle 5 base_low) = true
  ∧ type base_low = "base"
  ∧ point_clouds (state_of (merge_cycle 5 base_low))
    = [pub_pcl {| pc_stamp := 5; pc_frame_id := "world"; points := [key_a] |}]
  ∧ ∃ pre pc m,
      published (state_of (merge_cycle 5 base_low))
        = pre ++ [pub_pcl pc; pub_merged m]
      ∧ pc_stamp pc = 5 ∧ pc_frame_id pc = "world"
      ∧ NoDup (points pc).
Proof.
  unfold merge_cycle.
  assert (Hr : returned (codec_args (@merge Z Z (option Tree) _ _ _) 5 base_low)
               = true).
  { vm_compute. reflexivity. }
  split; [exact Hr|]. split; [reflexivity|].
  split; [vm_compute; reflexivity|].
  pose proof (returned_Done _ Hr) as Hd.
  pose proof (codec_args (@base_publishes_point_cloud Z Z (option Tree) _ _ _)
                5 base_low _ Hd eq_refl) as H.
  destruct H as (pre & pc & m & Hpub & Hstamp & Hframe & Hnodup & _).
  exists pre, pc, m.
  split; [exact Hpub|]. split; [exact Hstamp|]. split; [exact Hframe|].
  exact Hnodup.
Defined.

Lemma robot_publishes_no_point_cloud_witness :
  type robot ≠ "base"
  ∧ point_clouds (state_of (run_ticks small_ticks robot)) = point_clouds robot.
Proof.
  assert (Ht : type robot ≠ "base") by discriminate.
  split; [exact Ht|].
  exact (codec_args (@robot_publishes_no_point_cloud Z Z (option Tree) _ _ _)
           small_ticks robot Ht).
Defined.

Lemma merge_returns_witness :
  batch_decodes decoder decoder (octo_type robot_full) (neighbors robot_full)
  ∧ returned (merge_cycle 5 robot_full) = true.
Proof.
  assert (Hb : batch_decodes decoder decoder (octo_type robot_full)
                 (neighbors robot_full)).
  { split; [simpl; lia|].
    intros nb Hnb. apply list_elem_of_singleton in Hnb. subst nb.
    split; [simpl; lia|].
    intros m Hm. apply list_elem_of_singleton in Hm. subst m. discriminate. }
  split; [exact Hb|].
  exact (codec_args (@merge_returns Z Z (option Tree) _ _ _) 5 robot_full
           ltac:(discriminate) Hb).
Defined.

Lemma tick_uses_latest_arrivals_witness :
  tick_once two_own_maps 3 robot = tick_once (tail two_own_maps) 3 robot.
Proof.
  exact (codec_args (@tick_uses_latest_arrivals Z Z (option Tree) _ _ _)
           two_own_maps (tail two_own_maps) 3 robot eq_refl eq_refl).
Defined.

End ScenarioFacts.
